(** * TalentRank: scoring and inference core

    A shallow embedding of the pure core of the TalentRank service:

    - [src/ranking/score_calculator.py]   (module [ScoreCalculator]),
    - [src/analysis/domain_classifier.py] (module [DomainClassifier]),
    - [src/analysis/nation_predictor.py]  (module [NationPredictor]),
    - [src/services/developer_analyzer.py] (module [DeveloperAnalyzer]).

    Conventions of the embedding.

    - Python [int] is [Z].  Python [float] is idealised as a real number
      ([R]): [math.log] is [ln], [/] is real division, [min] is [Rmin].
      Where the bits of a float result are at stake
      ([calculate_final_score] at concrete inputs, [_normalize_value]
      beyond the range of a double) the expression is additionally
      transcribed over IEEE binary64 in module [Binary64].
    - Python [str] is [string], restricted to ASCII text; [str.lower] and
      [str.strip] are written out on ASCII.
    - A Python exception is a value [Raise e] of the [result] type; a
      statement that a function "never raises" is a statement that it
      returns [Ok _].
    - An [await] takes an object that is either awaitable or not; the
      analyzer is written against any collector, and the collector of the
      repository, whose methods are plain [def]s, is one instance.  The
      answers of the GitHub client are parameters, and the client is
      taken to answer.
    - A [dict] used as a finite map is a [gmap], a [set] is a [gset]; the
      [Counter] of the nation predictor, whose iteration order breaks
      ties, is an association list in insertion order. *)

From Stdlib Require Import ZArith Reals Lra Lia String Ascii List Bool PrimFloat.
From stdpp Require Import base option list gmap strings fin_maps fin_sets.

Local Open Scope Z_scope.

#[local] Set Warnings "-inexact-float".

(** ** Exceptions *)

Inductive exn : Type :=
| ZeroDivisionError
| ValueError
| IndexError
| KeyError
| TypeError.

Inductive result (A : Type) : Type :=
| Ok (a : A)
| Raise (e : exn).

Arguments Ok {A} a.
Arguments Raise {A} e.

#[global] Instance result_ret : MRet result := @Ok.

#[global] Instance result_bind : MBind result := λ A B k m,
  match m with
  | Ok a => k a
  | Raise e => Raise e
  end.

(** The operand of an [await] expression: an ordinary object, such as a
    plain [def] returns, or an awaitable that resolves to a value, such
    as the call of an [async def] gives. *)
Inductive awaited (A : Type) : Type :=
| Plain (a : A)
| Coroutine (a : A).

Arguments Plain {A} a.
Arguments Coroutine {A} a.

(** [await x]: an object that is not awaitable raises [TypeError]. *)
Definition await {A : Type} (x : awaited A) : result A :=
  match x with
  | Coroutine a => Ok a
  | Plain _ => Raise TypeError
  end.

(** Python's true division [x / y] on floats. *)
Definition truediv (x y : R) : result R :=
  if Req_dec_T y 0 then Raise ZeroDivisionError else Ok (x / y)%R.

(** [math.log(x)] for an integer argument, with the binary64 result
    idealised as the real logarithm.  The rounding of the library
    function is not represented: statements that rest on this definition
    are made for the baselines the code passes (at most 1000), where the
    clamp at 100 and the spacing of the logarithms of small integers
    leave no room for it to matter. *)
Definition math_log (x : Z) : result R :=
  if Z_le_dec x 0 then Raise ValueError else Ok (ln (IZR x)).

(** ** Strings

    [str.lower], [str.strip] and the substring test [needle in haystack],
    on ASCII text. *)

Definition ascii_lower (c : ascii) : ascii :=
  let n := nat_of_ascii c in
  if ((65 <=? n) && (n <=? 90))%nat then ascii_of_nat (n + 32) else c.

Fixpoint lower (s : string) : string :=
  match s with
  | EmptyString => EmptyString
  | String c s' => String (ascii_lower c) (lower s')
  end.

(** The ASCII characters for which [str.isspace] holds. *)
Definition is_space (c : ascii) : bool :=
  let n := nat_of_ascii c in
  (((9 <=? n) && (n <=? 13)) || ((28 <=? n) && (n <=? 32)))%nat.

Fixpoint lstrip (s : string) : string :=
  match s with
  | EmptyString => EmptyString
  | String c s' => if is_space c then lstrip s' else s
  end.

Fixpoint rstrip (s : string) : string :=
  match s with
  | EmptyString => EmptyString
  | String c s' =>
      match rstrip s' with
      | EmptyString => if is_space c then EmptyString else String c EmptyString
      | r => String c r
      end
  end.

Definition strip (s : string) : string := rstrip (lstrip s).

(** [needle in haystack] on strings. *)
Fixpoint str_contains (needle haystack : string) : bool :=
  String.prefix needle haystack ||
  match haystack with
  | EmptyString => false
  | String _ h' => str_contains needle h'
  end.

(** Truth value of a [str]: the empty string is falsy. *)
Definition str_truthy (s : string) : bool :=
  match s with
  | EmptyString => false
  | String _ _ => true
  end.

(** Truth value of an [Optional[str]]: [None] and the empty string are falsy. *)
Definition opt_str_truthy (o : option string) : bool :=
  match o with
  | Some s => str_truthy s
  | None => false
  end.

(** ** ScoreCalculator *)

Module ScoreCalculator.

Record ProjectMetrics : Type := {
  stars : Z;
  forks : Z;
  watchers : Z
}.

Record DeveloperMetrics : Type := {
  commits : Z;
  resolved_issues : Z;
  pull_requests : Z;
  code_reviews : Z
}.

Record project_weights : Type := {
  w_stars : R;
  w_forks : R;
  w_watchers : R
}.

Record developer_weights : Type := {
  w_commits : R;
  w_resolved_issues : R;
  w_pull_requests : R;
  w_code_reviews : R
}.

Definition PROJECT_WEIGHTS : project_weights :=
  {| w_stars := 0.4; w_forks := 0.3; w_watchers := 0.3 |}%R.

Definition DEVELOPER_WEIGHTS : developer_weights :=
  {| w_commits := 0.3; w_resolved_issues := 0.25;
     w_pull_requests := 0.25; w_code_reviews := 0.2 |}%R.

(** [_normalize_value(value, baseline)]. *)
Definition _normalize_value (value baseline : Z) : result R :=
  if Z_le_dec value 0 then Ok 0%R
  else
    lv ← math_log (value + 1);
    lb ← math_log (baseline + 1);
    q ← truediv lv lb;
    Ok (Rmin 100 (q * 100)).

(** The real number [log(value+1)/log(baseline+1) * 100] that
    [_normalize_value] clamps when no exception is raised. *)
Definition log_ratio (value baseline : Z) : R :=
  (ln (IZR (value + 1)) / ln (IZR (baseline + 1)) * 100)%R.

(** [calculate_project_importance(metrics)]. *)
Definition calculate_project_importance (metrics : ProjectMetrics) : result R :=
  normalized_stars ← _normalize_value (stars metrics) 1000;
  normalized_forks ← _normalize_value (forks metrics) 500;
  normalized_watchers ← _normalize_value (watchers metrics) 200;
  let score :=
    (normalized_stars * w_stars PROJECT_WEIGHTS +
     normalized_forks * w_forks PROJECT_WEIGHTS +
     normalized_watchers * w_watchers PROJECT_WEIGHTS)%R in
  Ok (Rmin score 100).

(** [calculate_developer_contribution(metrics)]. *)
Definition calculate_developer_contribution (metrics : DeveloperMetrics) : result R :=
  normalized_commits ← _normalize_value (commits metrics) 100;
  normalized_issues ← _normalize_value (resolved_issues metrics) 50;
  normalized_prs ← _normalize_value (pull_requests metrics) 30;
  normalized_reviews ← _normalize_value (code_reviews metrics) 40;
  let score :=
    (normalized_commits * w_commits DEVELOPER_WEIGHTS +
     normalized_issues * w_resolved_issues DEVELOPER_WEIGHTS +
     normalized_prs * w_pull_requests DEVELOPER_WEIGHTS +
     normalized_reviews * w_code_reviews DEVELOPER_WEIGHTS)%R in
  Ok (Rmin score 100).

(** [calculate_final_score(project_score, contribution_score, activity_factor)]. *)
Definition calculate_final_score
    (project_score contribution_score activity_factor : R) : R :=
  ((project_score * 0.4 + contribution_score * 0.6) * activity_factor)%R.

End ScoreCalculator.

Module Binary64.

(** The expression of [calculate_final_score] evaluated in IEEE binary64,
    the arithmetic of Python's [float]. *)
Definition calculate_final_score
    (project_score contribution_score activity_factor : float) : float :=
  ((project_score * 0.4 + contribution_score * 0.6) * activity_factor)%float.

(** [_normalize_value] in binary64, with [math.log] on integers taken
    as a parameter: [min(100, x)] is [x] when [x < 100] and 100
    otherwise. *)
Definition _normalize_value (math_log : Z → float) (value baseline : Z) : float :=
  if Z_le_dec value 0 then 0%float
  else
    let x := (math_log (value + 1)%Z / math_log (baseline + 1)%Z * 100)%float in
    if (x <? 100)%float then x else 100%float.

(** The doubles that CPython's [math.log] returns (glibc, x86-64) at the
    three integers [2**2955 - 2**2902], [2**2955] and [2**2956 + 1]; the
    value given elsewhere is not used. *)
Definition math_log_sample (x : Z) : float :=
  if Z.eq_dec x (2 ^ 2955 - 2 ^ 2902) then 0x1.0007ff55325acp+11%float
  else if Z.eq_dec x (2 ^ 2955) then 0x1.0007ff55325abp+11%float
  else if Z.eq_dec x (2 ^ 2956 + 1) then 0x1.001e2d983154fp+11%float
  else 0%float.

End Binary64.

(** ** DomainClassifier *)

Module DomainClassifier.

(** A repository detail [Dict], as read through [repo.get]: a field is
    [None] when the key is absent (or, for [language], when its value is
    Python's [None]). *)
Record Repo : Type := {
  stars : option Z;
  forks : option Z;
  watchers : option Z;
  language : option string;
  topics : option (list string)
}.

(** A contribution [Dict]. *)
Record Contribution : Type := {
  commits_count : option Z;
  resolved_issues : option Z;
  pull_requests : option Z;
  code_reviews : option Z
}.

(** [_init_domain_keywords()]: the table, in declaration order. *)
Definition _init_domain_keywords : list (string * list string) :=
  [ ("Frontend", ["javascript"; "typescript"; "react"; "vue"; "angular"; "web"]);
    ("Backend", ["python"; "java"; "golang"; "nodejs"; "django"; "spring"]);
    ("Mobile", ["android"; "ios"; "flutter"; "react-native"; "mobile"]);
    ("DevOps", ["docker"; "kubernetes"; "aws"; "cicd"; "jenkins"]);
    ("AI/ML", ["machine-learning"; "deep-learning"; "tensorflow"; "pytorch"]);
    ("Security", ["security"; "cryptography"; "encryption"; "penetration"]);
    ("Database", ["mysql"; "postgresql"; "mongodb"; "redis"; "elasticsearch"]) ]%string.

Definition domain_keywords : list (string * list string) := _init_domain_keywords.

(** [_classify_by_language(language)]. *)
Definition _classify_by_language (language : string) : gset string :=
  let language := lower language in
  foldl (λ (domains : gset string) '(domain, keywords),
           if bool_decide (language ∈ keywords) then domains ∪ {[ domain ]}
           else domains)
        ∅ domain_keywords.

(** [_classify_by_topics(topics)]. *)
Definition _classify_by_topics (topics : list string) : gset string :=
  foldl (λ (domains : gset string) topic,
           let topic := lower topic in
           foldl (λ (domains : gset string) '(domain, keywords),
                    if existsb (λ keyword, str_contains keyword topic) keywords
                    then domains ∪ {[ domain ]}
                    else domains)
                 domains domain_keywords)
        ∅ topics.

(** [_analyze_repo_domains(repo)]. *)
Definition _analyze_repo_domains (repo : Repo) : gset string :=
  let domains : gset string := ∅ in
  let domains :=
    match language repo with
    | Some l => if str_truthy l then domains ∪ _classify_by_language l else domains
    | None => domains
    end in
  let domains :=
    match topics repo with
    | Some (t :: ts) => domains ∪ _classify_by_topics (t :: ts)
    | _ => domains
    end in
  domains.

(** [_calculate_repo_weight(repo)]: [min(100, repo.get('stars', 0) / 100)]. *)
Definition _calculate_repo_weight (repo : Repo) : R :=
  Rmin 100 (IZR (default 0 (stars repo)) / 100).

(** [domain_scores[domain] += weight] on a [defaultdict(float)]. *)
Definition add_score (weight : R) (domain : string) (domain_scores : gmap string R)
    : gmap string R :=
  <[ domain := (default 0 (domain_scores !! domain) + weight)%R ]> domain_scores.

(** One iteration of the first loop of [classify_domains], on the state
    [(domain_scores, total_weight)]. *)
Definition accumulate_step (state : gmap string R * R) (repo : Repo) : gmap string R * R :=
  let '(domain_scores, total_weight) := state in
  let weight := _calculate_repo_weight repo in
  let total_weight := (total_weight + weight)%R in
  let domains := _analyze_repo_domains repo in
  (set_fold (add_score weight) domain_scores domains, total_weight).

(** The first loop of [classify_domains]: the accumulated scores and the
    total weight after all repositories. *)
Definition accumulate (repositories : list Repo) : gmap string R * R :=
  foldl accumulate_step (∅, 0%R) repositories.

(** The second loop: [for domain in domain_scores:
    domain_scores[domain] /= total_weight], updating the dict in place. *)
Definition normalize_scores (total_weight : R) (domain_scores : gmap string R)
    : result (gmap string R) :=
  map_fold (λ domain score (acc : result (gmap string R)),
              scores ← acc;
              score' ← truediv score total_weight;
              Ok (<[ domain := score' ]> scores))
           (Ok domain_scores) domain_scores.

(** [classify_domains(repositories, contributions)]. *)
Definition classify_domains (repositories : list Repo) (contributions : list Contribution)
    : result (gmap string R) :=
  let '(domain_scores, total_weight) := accumulate repositories in
  if Rlt_dec 0 total_weight then normalize_scores total_weight domain_scores
  else Ok domain_scores.

End DomainClassifier.

(** ** NationPredictor *)

Module NationPredictor.

(** [_load_location_mapping()]: the table, in declaration order. *)
Definition _load_location_mapping : list (string * list string) :=
  [ ("China", ["china"; "cn"; "beijing"; "shanghai"; "guangzhou"; "shenzhen"]);
    ("United States", ["usa"; "us"; "united states"; "california"; "new york"]);
    ("India", ["india"; "bangalore"; "mumbai"; "delhi"]);
    ("United Kingdom", ["uk"; "united kingdom"; "london"; "manchester"]) ]%string.

Definition location_mapping : list (string * list string) := _load_location_mapping.

(** The loop of [_map_location_to_nation] over the table: the first
    nation one of whose keywords occurs in [location]. *)
Fixpoint first_match (location : string) (table : list (string * list string))
    : option string :=
  match table with
  | [] => None
  | (nation, keywords) :: table' =>
      if existsb (λ keyword, str_contains keyword location) keywords
      then Some nation
      else first_match location table'
  end.

(** [_map_location_to_nation(location)]. *)
Definition _map_location_to_nation (location : option string) : option string :=
  match location with
  | None => None
  | Some location =>
      if str_truthy location
      then first_match (strip (lower location)) location_mapping
      else None
  end.

(** [collections.Counter]: counts per key, keys in order of first insertion. *)
Fixpoint counter_incr (x : string) (c : list (string * nat)) : list (string * nat) :=
  match c with
  | [] => [(x, 1%nat)]
  | (y, n) :: c' =>
      if decide (x = y) then (y, S n) :: c' else (y, n) :: counter_incr x c'
  end.

Definition Counter (l : list string) : list (string * nat) :=
  foldl (λ c x, counter_incr x c) [] l.

(** [max(p :: c, key=itemgetter(1))]: the running maximum is replaced
    only by a strictly larger count, so the first maximal entry wins. *)
Definition max_entry (p : string * nat) (c : list (string * nat)) : string * nat :=
  foldl (λ best q, if (best.2 <? q.2)%nat then q else best) p c.

(** [Counter.most_common(1)]: the first entry of maximal count, if any. *)
Definition most_common_1 (c : list (string * nat)) : list (string * nat) :=
  match c with
  | [] => []
  | p :: c' => [max_entry p c']
  end.

(** List subscript [l[0]]. *)
Definition item_0 {A : Type} (l : list A) : result A :=
  match l with
  | [] => Raise IndexError
  | x :: _ => Ok x
  end.

(** The list comprehension of [_predict_from_network]. *)
Fixpoint mapped_nations (network_locations : list string) : list string :=
  match network_locations with
  | [] => []
  | loc :: rest =>
      if str_truthy loc && opt_str_truthy (_map_location_to_nation (Some loc))
      then match _map_location_to_nation (Some loc) with
           | Some nation => nation :: mapped_nations rest
           | None => mapped_nations rest
           end
      else mapped_nations rest
  end.

(** [_predict_from_network(network_locations)]. *)
Definition _predict_from_network (network_locations : list string) : result (string * R) :=
  let mapped_nations := mapped_nations network_locations in
  match mapped_nations with
  | [] => Ok ("Unknown"%string, 0%R)
  | _ =>
      let nation_counts := Counter mapped_nations in
      let total_valid := length mapped_nations in
      most_common ← item_0 (most_common_1 nation_counts);
      let nation := most_common.1 in
      confidence ← truediv (INR most_common.2) (INR total_valid);
      Ok (nation, confidence)
  end.

(** [predict_nation(developer_location, network_locations)]. *)
Definition predict_nation (developer_location : option string)
    (network_locations : list string) : result (string * R) :=
  if opt_str_truthy developer_location then
    let mapped_nation := _map_location_to_nation developer_location in
    match mapped_nation with
    | Some nation =>
        if str_truthy nation then Ok (nation, 1%R)
        else _predict_from_network network_locations
    | None => _predict_from_network network_locations
    end
  else _predict_from_network network_locations.

End NationPredictor.

(** ** DeveloperAnalyzer *)

Module DeveloperAnalyzer.

Import DomainClassifier.

(** The [DeveloperProfile] dataclass of [github_collector.py]. *)
Record DeveloperProfile : Type := {
  username : string;
  name : option string;
  location : option string;
  blog : option string;
  bio : option string;
  repositories : list string;
  followers : list string;
  following : list string
}.

Record DeveloperAnalysis : Type := {
  a_username : string;
  talent_rank : R;
  nation : string;
  nation_confidence : R;
  domains : gmap string R;
  profile : DeveloperProfile;
  last_updated : Z
}.

(** Dict subscript [d[key]] on a field that may be absent. *)
Definition getitem {A : Type} (field : option A) : result A :=
  match field with
  | Some v => Ok v
  | None => Raise KeyError
  end.

Section Analyzer.

(** [self.collector], as the analyzer uses it: the object that each of
    its three methods returns, which the analyzer hands to [await], and
    the clock read by [datetime.now()]. *)
Variable get_developer_profile : string → awaited DeveloperProfile.
Variable get_repository_metrics : string → awaited Repo.
Variable get_developer_contributions : string → string → awaited Contribution.
Variable now : Z.

(** [_calculate_activity_factor(repositories)]. *)
Definition _calculate_activity_factor (repositories : list string) : R := 1%R.

(** The loop of [_calculate_talent_rank]: the state is
    [(total_project_score, total_contribution_score, repo_count)]. *)
Fixpoint score_repositories (username : string) (repositories : list string)
    (acc : R * R * Z) : result (R * R * Z) :=
  match repositories with
  | [] => Ok acc
  | repo_name :: rest =>
      let '(total_project_score, total_contribution_score, repo_count) := acc in
      metrics ← await (get_repository_metrics repo_name);
      m_stars ← getitem (stars metrics);
      m_forks ← getitem (forks metrics);
      m_watchers ← getitem (watchers metrics);
      let project_metrics :=
        {| ScoreCalculator.stars := m_stars;
           ScoreCalculator.forks := m_forks;
           ScoreCalculator.watchers := m_watchers |} in
      contributions ← await (get_developer_contributions username repo_name);
      c_commits ← getitem (commits_count contributions);
      c_issues ← getitem (resolved_issues contributions);
      c_pulls ← getitem (pull_requests contributions);
      c_reviews ← getitem (code_reviews contributions);
      let developer_metrics :=
        {| ScoreCalculator.commits := c_commits;
           ScoreCalculator.resolved_issues := c_issues;
           ScoreCalculator.pull_requests := c_pulls;
           ScoreCalculator.code_reviews := c_reviews |} in
      project_score ← ScoreCalculator.calculate_project_importance project_metrics;
      contribution_score ←
        ScoreCalculator.calculate_developer_contribution developer_metrics;
      score_repositories username rest
        ((total_project_score + project_score)%R,
         (total_contribution_score + contribution_score)%R,
         repo_count + 1)
  end.

(** [_calculate_talent_rank(username, repositories)]. *)
Definition _calculate_talent_rank (username : string) (repositories : list string)
    : result R :=
  totals ← score_repositories username repositories (0%R, 0%R, 0);
  let '(total_project_score, total_contribution_score, repo_count) := totals in
  if Z.eq_dec repo_count 0 then Ok 0%R
  else
    avg_project_score ← truediv total_project_score (IZR repo_count);
    avg_contribution_score ← truediv total_contribution_score (IZR repo_count);
    let activity_factor := _calculate_activity_factor repositories in
    Ok (ScoreCalculator.calculate_final_score
          avg_project_score avg_contribution_score activity_factor).

(** One loop of [_collect_network_locations]: the locations collected so
    far, extended by the non-empty location of each account in turn. *)
Fixpoint collect_locations (accounts : list string) (locations : list string)
    : result (list string) :=
  match accounts with
  | [] => Ok locations
  | account :: rest =>
      account_profile ← await (get_developer_profile account);
      collect_locations rest
        match location account_profile with
        | Some loc => if str_truthy loc then locations ++ [loc] else locations
        | None => locations
        end
  end.

(** [_collect_network_locations(profile)]. *)
Definition _collect_network_locations (profile : DeveloperProfile)
    : result (list string) :=
  locations ← collect_locations (followers profile) [];
  collect_locations (following profile) locations.

(** [_collect_repository_details(repositories)]. *)
Fixpoint _collect_repository_details (repositories : list string) : result (list Repo) :=
  match repositories with
  | [] => Ok []
  | repo_name :: rest =>
      metrics ← await (get_repository_metrics repo_name);
      details ← _collect_repository_details rest;
      Ok (metrics :: details)
  end.

(** [_collect_contributions(username, repositories)]. *)
Fixpoint _collect_contributions (username : string) (repositories : list string)
    : result (list Contribution) :=
  match repositories with
  | [] => Ok []
  | repo_name :: rest =>
      contrib ← await (get_developer_contributions username repo_name);
      contributions ← _collect_contributions username rest;
      Ok (contrib :: contributions)
  end.

(** [analyze_developer(username)]. *)
Definition analyze_developer (username : string) : result DeveloperAnalysis :=
  profile ← await (get_developer_profile username);
  talent_rank ← _calculate_talent_rank username (repositories profile);
  network_locations ← _collect_network_locations profile;
  prediction ← NationPredictor.predict_nation (location profile) network_locations;
  let '(nation, confidence) := prediction in
  repository_details ← _collect_repository_details (repositories profile);
  contributions ← _collect_contributions username (repositories profile);
  domains ← classify_domains repository_details contributions;
  Ok {| a_username := username;
        talent_rank := talent_rank;
        nation := nation;
        nation_confidence := confidence;
        domains := domains;
        profile := profile;
        last_updated := now |}.

End Analyzer.

End DeveloperAnalyzer.

(** ** GitHubDataCollector *)

Module GitHubDataCollector.

(** What [_get_review_count] reads of a review and of a pull request:
    the reviewer's login, the creation time and the reviews. *)
Record Review : Type := {
  user_login : string
}.

Record PullRequest : Type := {
  created_at : Z;
  get_reviews : list Review
}.

(** [_get_review_count(repo, username, since)], with [repo] given by the
    list [repo.get_pulls(state='all')] of its pull requests. *)
Definition _get_review_count (pulls : list PullRequest) (username : string) (since : Z)
    : Z :=
  foldl (λ reviews_count pull,
           if created_at pull <? since then reviews_count
           else
             reviews_count +
             foldl (λ total review,
                      if decide (user_login review = username) then total + 1 else total)
                   0 (get_reviews pull))
        0 pulls.

(** What the collector reads of the GitHub client's answers: a user
    (with the full names of the repositories and the logins of the
    followers and followed accounts) and a repository (with the counts
    of the queries that [get_developer_contributions] makes on it). *)
Record NamedUser : Type := {
  login : string;
  user_name : option string;
  user_location : option string;
  user_blog : option string;
  user_bio : option string;
  get_repos : list string;
  get_followers : list string;
  get_following : list string
}.

Record Repository : Type := {
  stargazers_count : Z;
  forks_count : Z;
  watchers_count : Z;
  repo_language : option string;
  get_topics : list string;
  commits_totalCount : NamedUser → Z → Z;
  closed_issues_totalCount : string → Z → Z;
  closed_pulls_totalCount : string → Z;
  get_pulls_all : list PullRequest
}.

Section Methods.

(** [self.github.get_user], [self.github.get_repo] and the clock read by
    [datetime.now()], in microseconds. *)
Variable get_user : string → NamedUser.
Variable get_repo : string → Repository.
Variable clock : Z.

(** [get_developer_profile(username)]: a plain [def], so what it returns
    is the [DeveloperProfile] itself, not an awaitable. *)
Definition get_developer_profile (username : string)
    : awaited DeveloperAnalyzer.DeveloperProfile :=
  let user := get_user username in
  Plain {| DeveloperAnalyzer.username := login user;
           DeveloperAnalyzer.name := user_name user;
           DeveloperAnalyzer.location := user_location user;
           DeveloperAnalyzer.blog := user_blog user;
           DeveloperAnalyzer.bio := user_bio user;
           DeveloperAnalyzer.repositories := get_repos user;
           DeveloperAnalyzer.followers := get_followers user;
           DeveloperAnalyzer.following := get_following user |}.

(** [get_repository_metrics(repo_name)]: a plain [def] returning the
    dict, with every key present. *)
Definition get_repository_metrics (repo_name : string) : awaited DomainClassifier.Repo :=
  let repo := get_repo repo_name in
  Plain {| DomainClassifier.stars := Some (stargazers_count repo);
           DomainClassifier.forks := Some (forks_count repo);
           DomainClassifier.watchers := Some (watchers_count repo);
           DomainClassifier.language := repo_language repo;
           DomainClassifier.topics := Some (get_topics repo) |}.

(** [get_developer_contributions(username, repo_name)]: a plain [def]
    returning the dict of the four counts over the last 365 days. *)
Definition get_developer_contributions (username repo_name : string)
    : awaited DomainClassifier.Contribution :=
  let repo := get_repo repo_name in
  let user := get_user username in
  let one_year_ago := clock - 365 * 86400 * 1000000 in
  Plain {| DomainClassifier.commits_count := Some (commits_totalCount repo user one_year_ago);
           DomainClassifier.resolved_issues :=
             Some (closed_issues_totalCount repo username one_year_ago);
           DomainClassifier.pull_requests := Some (closed_pulls_totalCount repo username);
           DomainClassifier.code_reviews :=
             Some (_get_review_count (get_pulls_all repo) username one_year_ago) |}.

End Methods.

End GitHubDataCollector.

(** ** Vocabulary of the statements *)

(** The domains matched by at least one repository of the list. *)
Definition matched_domains (repositories : list DomainClassifier.Repo) : gset string :=
  ⋃ (DomainClassifier._analyze_repo_domains <$> repositories).

(** The sum of the weights of all repositories. *)
Fixpoint total_weight (repositories : list DomainClassifier.Repo) : R :=
  match repositories with
  | [] => 0%R
  | repo :: rest =>
      (DomainClassifier._calculate_repo_weight repo + total_weight rest)%R
  end.

(** The sum of the weights of the repositories that match [domain]. *)
Fixpoint domain_weight (domain : string) (repositories : list DomainClassifier.Repo) : R :=
  match repositories with
  | [] => 0%R
  | repo :: rest =>
      if decide (domain ∈ DomainClassifier._analyze_repo_domains repo)
      then (DomainClassifier._calculate_repo_weight repo + domain_weight domain rest)%R
      else domain_weight domain rest
  end.

(** A repository detail with the given star count, language and topics. *)
Definition mk_repo (stars : Z) (language : option string) (topics : list string)
    : DomainClassifier.Repo :=
  {| DomainClassifier.stars := Some stars;
     DomainClassifier.forks := Some 0;
     DomainClassifier.watchers := Some 0;
     DomainClassifier.language := language;
     DomainClassifier.topics := Some topics |}.

(** The number of occurrences of [region] in a list of regions. *)
Definition occurrences (region : string) (regions : list string) : nat :=
  count_occ string_dec regions region.

(** [c[key]] on a [Counter]: the count of the first entry for [key], 0
    when there is none. *)
Fixpoint counter_get (key : string) (c : list (string * nat)) : nat :=
  match c with
  | [] => 0%nat
  | (k, n) :: c' => if decide (key = k) then n else counter_get key c'
  end.

(** A snapshot of upstream data in which nobody owns a repository:
    every profile has the given location and follows one account. *)
Definition lone_profile (loc : option string) (user : string)
    : DeveloperAnalyzer.DeveloperProfile :=
  {| DeveloperAnalyzer.username := user;
     DeveloperAnalyzer.name := None;
     DeveloperAnalyzer.location := loc;
     DeveloperAnalyzer.blog := None;
     DeveloperAnalyzer.bio := None;
     DeveloperAnalyzer.repositories := [];
     DeveloperAnalyzer.followers := [];
     DeveloperAnalyzer.following := ["octocat"%string] |}.

Definition no_contribution : DomainClassifier.Contribution :=
  {| DomainClassifier.commits_count := Some 0;
     DomainClassifier.resolved_issues := Some 0;
     DomainClassifier.pull_requests := Some 0;
     DomainClassifier.code_reviews := Some 0 |}.

(** The value of [_normalize_value] when it raises nothing. *)
Definition normalized (value baseline : Z) : R :=
  if Z_le_dec value 0 then 0%R
  else Rmin 100 (ScoreCalculator.log_ratio value baseline).

(** A string made of whitespace characters only. *)
Fixpoint all_space (s : string) : bool :=
  match s with
  | EmptyString => true
  | String c s' => is_space c && all_space s'
  end.

(** Some keyword of the list occurs in [location]. *)
Definition location_matches (location : string) (keywords : list string) : bool :=
  existsb (λ keyword, str_contains keyword location) keywords.

(** The metrics [Dict] of a repository has the three keys that
    [_calculate_talent_rank] subscripts. *)
Definition has_metric_keys (metrics : DomainClassifier.Repo) : bool :=
  match DomainClassifier.stars metrics, DomainClassifier.forks metrics,
        DomainClassifier.watchers metrics with
  | Some _, Some _, Some _ => true
  | _, _, _ => false
  end.

(** The contributions [Dict] has the four keys that
    [_calculate_talent_rank] subscripts. *)
Definition has_contribution_keys (contributions : DomainClassifier.Contribution) : bool :=
  match DomainClassifier.commits_count contributions,
        DomainClassifier.resolved_issues contributions,
        DomainClassifier.pull_requests contributions,
        DomainClassifier.code_reviews contributions with
  | Some _, Some _, Some _, Some _ => true
  | _, _, _, _ => false
  end.

(** The value an awaited object carries. *)
Definition resolved {A : Type} (x : awaited A) : A :=
  match x with
  | Plain a => a
  | Coroutine a => a
  end.

(** The object is awaitable. *)
Definition is_coroutine {A : Type} (x : awaited A) : bool :=
  match x with
  | Plain _ => false
  | Coroutine _ => true
  end.

(** For [repo_name] both collector calls return awaitables, and the
    dicts they resolve to have every key the loop of
    [_calculate_talent_rank] subscripts. *)
Definition complete_data
    (get_repository_metrics : string → awaited DomainClassifier.Repo)
    (get_developer_contributions : string → string → awaited DomainClassifier.Contribution)
    (user repo_name : string) : bool :=
  is_coroutine (get_repository_metrics repo_name) &&
  is_coroutine (get_developer_contributions user repo_name) &&
  has_metric_keys (resolved (get_repository_metrics repo_name)) &&
  has_contribution_keys (resolved (get_developer_contributions user repo_name)).

(** The non-empty location of an account's profile, if it has one. *)
Definition account_location
    (get_developer_profile : string → awaited DeveloperAnalyzer.DeveloperProfile)
    (account : string) : option string :=
  match DeveloperAnalyzer.location (resolved (get_developer_profile account)) with
  | Some loc => if str_truthy loc then Some loc else None
  | None => None
  end.

(** The baselines that [calculate_project_importance] and
    [calculate_developer_contribution] pass to [_normalize_value]. *)
Definition baselines : list Z := [1000; 500; 200; 100; 50; 30; 40].

(** A profile that owns two repositories and has one follower. *)
Definition owner_profile (loc : option string) (user : string)
    : DeveloperAnalyzer.DeveloperProfile :=
  {| DeveloperAnalyzer.username := user;
     DeveloperAnalyzer.name := None;
     DeveloperAnalyzer.location := loc;
     DeveloperAnalyzer.blog := None;
     DeveloperAnalyzer.bio := None;
     DeveloperAnalyzer.repositories := ["alice/compiler"; "alice/notes"]%string;
     DeveloperAnalyzer.followers := ["bob"%string];
     DeveloperAnalyzer.following := [] |}.

(** The reviews of [username] on a list of pull requests. *)
Definition reviews_by (username : string) (pulls : list GitHubDataCollector.PullRequest)
    : list GitHubDataCollector.Review :=
  filter (λ review, GitHubDataCollector.user_login review = username)
         (pulls ≫= GitHubDataCollector.get_reviews).

(** * Properties *)

(** ** The error monad *)

Lemma Ok_inj {A : Type} (a b : A) : Ok a = Ok b → a = b.
Proof.
  intros Heq.
  exact (f_equal (λ r, match r with Ok x => x | Raise _ => a end) Heq).
Qed.

Lemma truediv_ok (x y : R) : y ≠ 0%R → truediv x y = Ok (x / y)%R.
Proof. intros Hy. unfold truediv. destruct (Req_dec_T y 0); [contradiction | reflexivity]. Qed.

Lemma math_log_ok (x : Z) : 0 < x → math_log x = Ok (ln (IZR x)).
Proof. intros Hx. unfold math_log. destruct (Z_le_dec x 0); [lia | reflexivity]. Qed.

(** ** ScoreCalculator: normalization *)

Section Normalize.

Import ScoreCalculator.

Local Open Scope R_scope.

Lemma ln_IZR_pos (x : Z) : (1 < x)%Z → 0 < ln (IZR x).
Proof.
  intros Hx. rewrite <- ln_1. apply ln_increasing; [lra |].
  apply IZR_lt. exact Hx.
Qed.

Lemma ln_IZR_le (x y : Z) : (0 < x)%Z → (x <= y)%Z → ln (IZR x) <= ln (IZR y).
Proof.
  intros Hx Hxy. destruct (Z.eq_dec x y) as [-> | Hne]; [lra |].
  left. apply ln_increasing.
  - apply (IZR_lt 0). exact Hx.
  - apply IZR_lt. lia.
Qed.

Lemma _normalize_value_nonpos (value baseline : Z) :
  (value <= 0)%Z → _normalize_value value baseline = Ok 0.
Proof. intros Hv. unfold _normalize_value. destruct (Z_le_dec value 0%Z); [reflexivity | lia]. Qed.

Lemma _normalize_value_pos (value baseline : Z) :
  (0 < value)%Z → (0 < baseline)%Z →
  _normalize_value value baseline = Ok (Rmin 100 (log_ratio value baseline)).
Proof.
  intros Hv Hb. unfold _normalize_value.
  destruct (Z_le_dec value 0%Z); [lia |].
  rewrite (math_log_ok (value + 1)) by lia. cbn.
  rewrite (math_log_ok (baseline + 1)) by lia. cbn.
  rewrite truediv_ok; [reflexivity |].
  pose proof (ln_IZR_pos (baseline + 1) ltac:(lia)). lra.
Qed.

Lemma log_ratio_nonneg (value baseline : Z) :
  (0 <= value)%Z → (0 < baseline)%Z → 0 <= log_ratio value baseline.
Proof.
  intros Hv Hb. unfold log_ratio.
  pose proof (ln_IZR_pos (baseline + 1) ltac:(lia)) as Hlb.
  pose proof (ln_IZR_le 1 (value + 1) ltac:(lia) ltac:(lia)) as Hlv.
  rewrite ln_1 in Hlv.
  apply Rmult_le_pos; [| lra].
  apply Rmult_le_pos; [exact Hlv |].
  left. apply Rinv_0_lt_compat. exact Hlb.
Qed.

Lemma log_ratio_mono (v1 v2 baseline : Z) :
  (0 <= v1)%Z → (v1 <= v2)%Z → (0 < baseline)%Z →
  log_ratio v1 baseline <= log_ratio v2 baseline.
Proof.
  intros H1 H12 Hb. unfold log_ratio.
  pose proof (ln_IZR_pos (baseline + 1) ltac:(lia)) as Hlb.
  pose proof (ln_IZR_le (v1 + 1) (v2 + 1) ltac:(lia) ltac:(lia)) as Hle.
  apply Rmult_le_compat_r; [lra |].
  apply Rmult_le_compat_r; [| exact Hle].
  left. apply Rinv_0_lt_compat. exact Hlb.
Qed.

(** The ratio reaches 100 exactly from [value = baseline] on. *)
Lemma log_ratio_ge_100 (value baseline : Z) :
  (0 <= value)%Z → (0 < baseline)%Z →
  100 <= log_ratio value baseline ↔ (baseline <= value)%Z.
Proof.
  intros Hv Hb. unfold log_ratio.
  pose proof (ln_IZR_pos (baseline + 1) ltac:(lia)) as Hlb.
  assert (Heq : ln (IZR (value + 1)) / ln (IZR (baseline + 1)) * 100 - 100 =
                (ln (IZR (value + 1)) - ln (IZR (baseline + 1))) *
                (100 / ln (IZR (baseline + 1)))) by (field; lra).
  assert (Hpos : 0 < 100 / ln (IZR (baseline + 1))).
  { apply Rdiv_lt_0_compat; lra. }
  split.
  - intros Hge.
    destruct (Z_lt_le_dec value baseline) as [Hlt | Hle]; [| exact Hle].
    exfalso.
    assert (Hln : ln (IZR (value + 1)) < ln (IZR (baseline + 1))).
    { apply ln_increasing; [apply (IZR_lt 0); lia | apply IZR_lt; lia]. }
    assert (Hneg : (ln (IZR (value + 1)) - ln (IZR (baseline + 1))) *
                   (100 / ln (IZR (baseline + 1))) < 0).
    { rewrite Rmult_comm. apply Rmult_pos_neg; lra. }
    lra.
  - intros Hle.
    pose proof (ln_IZR_le (baseline + 1) (value + 1) ltac:(lia) ltac:(lia)) as Hln.
    assert (Hnn : 0 <= (ln (IZR (value + 1)) - ln (IZR (baseline + 1))) *
                      (100 / ln (IZR (baseline + 1)))).
    { apply Rmult_le_pos; lra. }
    lra.
Qed.

Lemma _normalize_value_range (value baseline : Z) :
  (0 <= value)%Z → (0 < baseline)%Z →
  ∃ r, _normalize_value value baseline = Ok r ∧ 0 <= r <= 100.
Proof.
  intros Hv Hb. destruct (Z.eq_dec value 0%Z) as [-> | Hne].
  - exists 0. rewrite _normalize_value_nonpos by lia. split; [reflexivity | lra].
  - exists (Rmin 100 (log_ratio value baseline)).
    rewrite _normalize_value_pos by lia. split; [reflexivity |].
    pose proof (log_ratio_nonneg value baseline Hv Hb).
    split; [apply Rmin_glb; lra | apply Rmin_l].
Qed.

Lemma _normalize_value_mono (v1 v2 baseline : Z) :
  (0 <= v1)%Z → (v1 <= v2)%Z → (0 < baseline)%Z →
  ∃ r1 r2, _normalize_value v1 baseline = Ok r1 ∧
           _normalize_value v2 baseline = Ok r2 ∧ r1 <= r2.
Proof.
  intros H1 H12 Hb. destruct (Z.eq_dec v1 0%Z) as [-> | Hne].
  - destruct (_normalize_value_range v2 baseline H12 Hb) as (r2 & Hr2 & Hlo & _).
    exists 0, r2. rewrite _normalize_value_nonpos by lia. auto.
  - exists (Rmin 100 (log_ratio v1 baseline)), (Rmin 100 (log_ratio v2 baseline)).
    rewrite !_normalize_value_pos by lia. split; [reflexivity |]. split; [reflexivity |].
    pose proof (log_ratio_mono v1 v2 baseline H1 H12 Hb).
    apply Rmin_glb; [apply Rmin_l |].
    eapply Rle_trans; [apply Rmin_r | assumption].
Qed.

Lemma _normalize_value_100_iff (value baseline : Z) :
  (0 < baseline)%Z →
  _normalize_value value baseline = Ok 100 ↔ (baseline <= value)%Z.
Proof.
  intros Hb. destruct (Z_le_dec value 0%Z) as [Hv | Hv].
  - rewrite _normalize_value_nonpos by exact Hv. split.
    + intros Heq. injection Heq as Heq. lra.
    + lia.
  - rewrite _normalize_value_pos by lia.
    rewrite <- (log_ratio_ge_100 value baseline) by lia. split.
    + intros Heq. injection Heq as Heq. rewrite <- Heq at 1. apply Rmin_r.
    + intros Hge. f_equal. apply Rmin_left. exact Hge.
Qed.

(** C3, as stated, fails: the normalized value of [10**9] against the
    baseline [100] is exactly 100, at a finite argument. *)
Lemma normalize_billion_is_100 :
  _normalize_value (10 ^ 9) 100 = Ok 100.
Proof. apply _normalize_value_100_iff; lia. Qed.

(** C3 (amended): for every baseline [b > 0], [normalize(0, b) = 0];
    [normalize(v, b)] never exceeds 100 for [v >= 0]; and the value 100
    is reached at a finite argument, not only in the limit:
    [normalize(b, b) = 100]. *)
Theorem normalize_zero_bounded_saturating (b : Z) :
  (0 < b)%Z →
  _normalize_value 0 b = Ok 0 ∧
  (∀ v, (0 <= v)%Z → ∃ r, _normalize_value v b = Ok r ∧ r <= 100) ∧
  _normalize_value b b = Ok 100.
Proof.
  intros Hb. split; [| split].
  - apply _normalize_value_nonpos. lia.
  - intros v Hv. destruct (_normalize_value_range v b Hv Hb) as (r & Hr & _ & Hhi).
    exists r. auto.
  - apply _normalize_value_100_iff; [exact Hb | lia].
Qed.

Lemma normalize_zero_bounded_saturating_witness :
  (0 < 100)%Z ∧
  (_normalize_value 0 100 = Ok 0 ∧
   (∀ v, (0 <= v)%Z → ∃ r, _normalize_value v 100 = Ok r ∧ r <= 100) ∧
   _normalize_value 100 100 = Ok 100).
Proof. split; [lia | apply (normalize_zero_bounded_saturating 100); lia]. Defined.

(** C5, as stated, fails on the code for baselines beyond the range of
    a double: with the doubles that [math.log] returns at the three
    integers involved, the binary64 evaluation of [_normalize_value] at
    [v1 = 2**2955 - 2**2902 - 1 < v2 = 2**2955 - 1] and the baseline
    [2**2956] gives [normalize(v1, b) > normalize(v2, b)]. *)
Lemma normalize_not_monotone_in_binary64 :
  (0 <= 2 ^ 2955 - 2 ^ 2902 - 1 < 2 ^ 2955 - 1)%Z ∧
  Binary64._normalize_value Binary64.math_log_sample
    (2 ^ 2955 - 2 ^ 2902 - 1) (2 ^ 2956) = 0x1.8fdd5bccbb105p+6%float ∧
  Binary64._normalize_value Binary64.math_log_sample
    (2 ^ 2955 - 1) (2 ^ 2956) = 0x1.8fdd5bccbb104p+6%float ∧
  PrimFloat.ltb
    (Binary64._normalize_value Binary64.math_log_sample (2 ^ 2955 - 1) (2 ^ 2956))
    (Binary64._normalize_value Binary64.math_log_sample
       (2 ^ 2955 - 2 ^ 2902 - 1) (2 ^ 2956)) = true.
Proof.
  split; [split; [vm_compute; discriminate | vm_compute; reflexivity] |].
  split; [vm_compute; reflexivity |]. split; vm_compute; reflexivity.
Qed.

(** C5 (amended): for each baseline that the code uses (1000, 500, 200,
    100, 50, 30, 40), normalization is monotone, for all [0 <= v1 < v2]
    we have [normalize(v1, b) <= normalize(v2, b)]; and for every
    baseline [b > 0] and every [v >= 0] the value [normalize(v, b)] lies
    in [[0, 100]]. *)
Theorem normalize_monotone_in_range (b : Z) :
  (0 < b)%Z →
  (b ∈ baselines →
   ∀ v1 v2, (0 <= v1)%Z → (v1 < v2)%Z →
     ∃ r1 r2, _normalize_value v1 b = Ok r1 ∧
              _normalize_value v2 b = Ok r2 ∧ r1 <= r2) ∧
  (∀ v, (0 <= v)%Z → ∃ r, _normalize_value v b = Ok r ∧ 0 <= r <= 100).
Proof.
  intros Hb. split.
  - intros _ v1 v2 H1 H12. apply _normalize_value_mono; lia.
  - intros v Hv. apply _normalize_value_range; assumption.
Qed.

Lemma normalize_monotone_in_range_witness :
  (0 < 1000)%Z ∧
  ((1000%Z ∈ baselines →
    ∀ v1 v2, (0 <= v1)%Z → (v1 < v2)%Z →
      ∃ r1 r2, _normalize_value v1 1000 = Ok r1 ∧
               _normalize_value v2 1000 = Ok r2 ∧ r1 <= r2) ∧
   (∀ v, (0 <= v)%Z → ∃ r, _normalize_value v 1000 = Ok r ∧ 0 <= r <= 100)).
Proof. split; [lia | apply (normalize_monotone_in_range 1000); lia]. Defined.

(** C6: [final_score] is exactly
    [(project_score*0.4 + contribution_score*0.6) * activity_factor], with
    no clamp after the multiplication: with two scores of 100 the result
    exceeds any bound for a large enough activity factor, and an activity
    factor of 2 gives 200, in real arithmetic and in binary64 alike.  At
    [(50, 50, 1.0)] the result is 50, and the binary64 evaluation of the
    same expression is the float [50.0] exactly. *)
Theorem final_score_unclamped :
  (∀ p c a, calculate_final_score p c a = (p * 0.4 + c * 0.6) * a) ∧
  (∀ bound, ∃ a, bound < calculate_final_score 100 100 a) ∧
  calculate_final_score 100 100 2 = 200 ∧
  calculate_final_score 50 50 1 = 50 ∧
  Binary64.calculate_final_score 100 100 2 = 200%float ∧
  Binary64.calculate_final_score 50 50 1 = 50%float.
Proof.
  split; [reflexivity |]. split.
  { intros bound. exists (bound / 100 + 1). unfold calculate_final_score. lra. }
  split; [unfold calculate_final_score; lra |].
  split; [unfold calculate_final_score; lra |].
  split; vm_compute; reflexivity.
Qed.

End Normalize.

(** ** DomainClassifier *)

Section Classifier.

Import DomainClassifier.

Local Open Scope R_scope.

Implicit Types (repo : Repo) (repositories : list Repo) (domain : string)
  (domain_scores : gmap string R).

(** One repository's contribution to the running scores. *)
Lemma set_fold_add_score_lookup (weight : R) domain_scores (domains : gset string) domain :
  set_fold (add_score weight) domain_scores domains !! domain =
  if decide (domain ∈ domains)
  then Some (default 0 (domain_scores !! domain) + weight)
  else domain_scores !! domain.
Proof.
  revert domain. revert domains.
  refine (set_fold_ind_L
    (λ (r : gmap string R) (X : gset string), ∀ domain,
       r !! domain = if decide (domain ∈ X)
                     then Some (default 0 (domain_scores !! domain) + weight)
                     else domain_scores !! domain) _ _ _ _).
  - intros domain. rewrite decide_False by set_solver. reflexivity.
  - intros x X r Hx IH domain. unfold add_score.
    destruct (decide (x = domain)) as [-> | Hne].
    + rewrite lookup_insert_eq. rewrite decide_True by set_solver.
      rewrite IH. rewrite decide_False by exact Hx. reflexivity.
    + rewrite lookup_insert_ne by exact Hne. rewrite IH.
      destruct (decide (domain ∈ X)) as [Hin | Hnin].
      * rewrite decide_True by (apply elem_of_union; auto). reflexivity.
      * rewrite decide_False; [reflexivity |].
        rewrite elem_of_union, elem_of_singleton. intros [-> | Hin]; auto.
Qed.

Lemma domain_weight_unmatched domain repositories :
  domain ∉ matched_domains repositories → domain_weight domain repositories = 0.
Proof.
  induction repositories as [| repo rest IH]; intros Hd; [reflexivity |].
  unfold matched_domains in Hd. cbn in Hd. fold (matched_domains rest) in Hd.
  cbn. rewrite decide_False by set_solver. apply IH. set_solver.
Qed.

(** The first loop, started from any state. *)
Lemma accumulate_from domain_scores (total : R) repositories :
  ∃ scores,
    foldl accumulate_step (domain_scores, total) repositories
    = (scores, total + total_weight repositories) ∧
    ∀ domain,
      scores !! domain =
      if decide (domain ∈ matched_domains repositories)
      then Some (default 0 (domain_scores !! domain) + domain_weight domain repositories)
      else domain_scores !! domain.
Proof.
  revert domain_scores total.
  induction repositories as [| repo rest IH]; intros domain_scores total.
  - exists domain_scores. cbn. split; [f_equal; lra |].
    intros domain. rewrite decide_False by set_solver. reflexivity.
  - cbn [foldl accumulate_step].
    destruct (IH (set_fold (add_score (_calculate_repo_weight repo)) domain_scores
                    (_analyze_repo_domains repo))
                 (total + _calculate_repo_weight repo)) as (scores & Hfold & Hlook).
    exists scores. split.
    + rewrite Hfold. cbn [total_weight]. f_equal. lra.
    + intros domain. rewrite Hlook, set_fold_add_score_lookup.
      unfold matched_domains. cbn [fmap list_fmap union_list foldr domain_weight].
      fold (matched_domains rest).
      destruct (decide (domain ∈ matched_domains rest)) as [Hr | Hr];
        destruct (decide (domain ∈ _analyze_repo_domains repo)) as [Hd | Hd].
      * rewrite decide_True by set_solver. cbn. f_equal. lra.
      * rewrite decide_True by set_solver. reflexivity.
      * rewrite decide_True by set_solver.
        rewrite (domain_weight_unmatched domain rest Hr). f_equal. lra.
      * rewrite decide_False; [reflexivity |].
        rewrite elem_of_union. intros [Hin | Hin]; auto.
Qed.

(** The state after the first loop of [classify_domains]. *)
Lemma accumulate_spec repositories :
  ∃ scores,
    accumulate repositories = (scores, total_weight repositories) ∧
    ∀ domain,
      scores !! domain =
      if decide (domain ∈ matched_domains repositories)
      then Some (domain_weight domain repositories)
      else None.
Proof.
  destruct (accumulate_from ∅ 0 repositories) as (scores & Hfold & Hlook).
  exists scores. split.
  - unfold accumulate. rewrite Hfold. f_equal. lra.
  - intros domain. rewrite Hlook, lookup_empty. cbn.
    destruct (decide _); [f_equal; lra | reflexivity].
Qed.

(** The second loop divides every score, and raises nothing, as soon as
    the divisor is not zero. *)
Lemma normalize_scores_ok (total : R) domain_scores :
  total ≠ 0 →
  normalize_scores total domain_scores = Ok ((λ score, score / total) <$> domain_scores).
Proof.
  intros Hne. unfold normalize_scores.
  assert (Hgen : ∀ m : gmap string R,
    map_fold (λ domain score (acc : result (gmap string R)),
                scores ← acc;
                score' ← truediv score total;
                Ok (<[ domain := score' ]> scores))
             (Ok domain_scores) m
    = Ok (((λ score, score / total) <$> m) ∪ domain_scores)).
  { refine (map_fold_weak_ind
      (λ (r : result (gmap string R)) (m : gmap string R),
         r = Ok (((λ score, score / total) <$> m) ∪ domain_scores)) _ _ _ _).
    - rewrite fmap_empty, (left_id_L ∅ (∪)). reflexivity.
    - intros domain score m r Hfresh ->. cbn.
      rewrite truediv_ok by exact Hne. cbn.
      rewrite fmap_insert, insert_union_l. reflexivity. }
  rewrite Hgen. f_equal. apply map_eq. intros domain.
  rewrite lookup_union, lookup_fmap.
  destruct (domain_scores !! domain); reflexivity.
Qed.

(** [classify_domains] never raises: the only division is guarded. *)
Lemma classify_domains_total repositories (contributions : list Contribution) :
  ∃ scores, classify_domains repositories contributions = Ok scores.
Proof.
  unfold classify_domains.
  destruct (accumulate repositories) as [scores total].
  destruct (Rlt_dec 0 total) as [Hpos | Hnpos].
  - rewrite normalize_scores_ok by lra. eauto.
  - eauto.
Qed.

(** The result of [classify_domains]: every matched domain with the sum
    of the weights of the repositories matching it, divided by the total
    weight when that is positive and left as it is otherwise. *)
Lemma classify_domains_spec repositories (contributions : list Contribution) :
  ∃ scores,
    classify_domains repositories contributions = Ok scores ∧
    ∀ domain,
      scores !! domain =
      if decide (domain ∈ matched_domains repositories)
      then Some (if Rlt_dec 0 (total_weight repositories)
                 then domain_weight domain repositories / total_weight repositories
                 else domain_weight domain repositories)
      else None.
Proof.
  unfold classify_domains.
  destruct (accumulate_spec repositories) as (scores & -> & Hlook).
  destruct (Rlt_dec 0 (total_weight repositories)) as [Hpos | Hnpos].
  - rewrite normalize_scores_ok by lra. eexists. split; [reflexivity |].
    intros domain. rewrite lookup_fmap, Hlook.
    destruct (decide _); reflexivity.
  - exists scores. split; [reflexivity | exact Hlook].
Qed.

Lemma _calculate_repo_weight_zero repo :
  default 0%Z (stars repo) = 0%Z → _calculate_repo_weight repo = 0.
Proof.
  intros Hs. unfold _calculate_repo_weight. rewrite Hs.
  rewrite Rmin_right; lra.
Qed.

Lemma _calculate_repo_weight_pos repo :
  (0 < default 0 (stars repo))%Z → 0 < _calculate_repo_weight repo.
Proof.
  intros Hs. unfold _calculate_repo_weight.
  apply (IZR_lt 0) in Hs.
  apply Rmin_glb_lt; lra.
Qed.

Lemma total_weight_zero repositories :
  Forall (λ repo, _calculate_repo_weight repo = 0) repositories →
  total_weight repositories = 0.
Proof.
  induction 1 as [| repo rest Hw _ IH]; cbn; [reflexivity |].
  rewrite Hw, IH. lra.
Qed.

Lemma domain_weight_zero domain repositories :
  Forall (λ repo, _calculate_repo_weight repo = 0) repositories →
  domain_weight domain repositories = 0.
Proof.
  induction 1 as [| repo rest Hw _ IH]; cbn; [reflexivity |].
  destruct (decide _); [rewrite Hw, IH; lra | exact IH].
Qed.

(** With zero total weight the scores are returned undivided: every
    matched domain is present, with score 0. *)
Lemma classify_domains_zero_weight repositories (contributions : list Contribution) :
  Forall (λ repo, _calculate_repo_weight repo = 0) repositories →
  classify_domains repositories contributions =
  Ok (gset_to_gmap 0 (matched_domains repositories)).
Proof.
  intros Hzero.
  destruct (classify_domains_spec repositories contributions) as (scores & -> & Hlook).
  f_equal. apply map_eq. intros domain.
  rewrite Hlook, lookup_gset_to_gmap.
  rewrite (total_weight_zero _ Hzero), (domain_weight_zero _ _ Hzero).
  destruct (Rlt_dec 0 0) as [Hlt | _]; [lra |].
  destruct (decide (domain ∈ matched_domains repositories)) as [Hin | Hnin].
  - rewrite option_guard_True by exact Hin. reflexivity.
  - rewrite option_guard_False by exact Hnin. reflexivity.
Qed.

Lemma classify_domains_nil (contributions : list Contribution) :
  classify_domains [] contributions = Ok ∅.
Proof.
  rewrite classify_domains_zero_weight by constructor.
  unfold matched_domains. cbn. rewrite gset_to_gmap_empty. reflexivity.
Qed.

(** A lone repository whose only matched domain is ["Frontend"]. *)
Lemma classify_domains_single_frontend repo (contributions : list Contribution) :
  _analyze_repo_domains repo = {[ "Frontend"%string ]} →
  classify_domains [repo] contributions =
  Ok {[ "Frontend"%string :=
          if Rlt_dec 0 (_calculate_repo_weight repo) then 1
          else _calculate_repo_weight repo ]}.
Proof.
  intros Hdom.
  destruct (classify_domains_spec [repo] contributions) as (scores & -> & Hlook).
  f_equal. apply map_eq. intros domain. rewrite Hlook.
  unfold matched_domains.
  cbn [total_weight domain_weight fmap list_fmap union_list foldr]. rewrite Hdom.
  assert (Hw : _calculate_repo_weight repo + 0 = _calculate_repo_weight repo) by lra.
  rewrite Hw.
  destruct (decide (domain = "Frontend"%string)) as [-> | Hne].
  - rewrite lookup_singleton_eq.
    rewrite decide_True by (apply elem_of_union; left; apply elem_of_singleton; reflexivity).
    rewrite decide_True by (apply elem_of_singleton; reflexivity).
    f_equal.
    destruct (Rlt_dec 0 (_calculate_repo_weight repo)); [field; lra | reflexivity].
  - rewrite lookup_singleton_ne by congruence.
    rewrite decide_False; [reflexivity |].
    rewrite elem_of_union, elem_of_singleton, elem_of_empty. tauto.
Qed.

Lemma javascript_repo_domains repo :
  language repo = Some "javascript"%string →
  default [] (topics repo) = [] →
  _analyze_repo_domains repo = {[ "Frontend"%string ]}.
Proof.
  intros Hlang Htopics. unfold _analyze_repo_domains. rewrite Hlang.
  destruct (topics repo) as [[| t ts] |]; cbn in Htopics; try discriminate;
    vm_compute; reflexivity.
Qed.

Lemma zero_star_javascript_scores :
  classify_domains [mk_repo 0 (Some "javascript"%string) []] [] =
  Ok {[ "Frontend"%string := 0 ]}.
Proof.
  rewrite classify_domains_single_frontend by (apply javascript_repo_domains; reflexivity).
  rewrite _calculate_repo_weight_zero by reflexivity.
  destruct (Rlt_dec 0 0); [lra | reflexivity].
Qed.

(** C1, as stated, fails: a single repository with 0 stars and language
    ["javascript"] has weight 0, yet the result is [{"Frontend": 0.0}],
    not the empty mapping. *)
Lemma zero_weight_match_not_empty :
  _calculate_repo_weight (mk_repo 0 (Some "javascript"%string) []) = 0 ∧
  classify_domains [mk_repo 0 (Some "javascript"%string) []] [] ≠ Ok ∅.
Proof.
  split; [apply _calculate_repo_weight_zero; reflexivity |].
  rewrite zero_star_javascript_scores. intros Heq. apply Ok_inj in Heq.
  apply (f_equal (λ m : gmap string R, m !! "Frontend"%string)) in Heq.
  rewrite lookup_singleton_eq, lookup_empty in Heq. discriminate.
Qed.

(** C1 (amended): for every list of repositories each of weight
    [min(100, stars/100) = 0] (the empty list included), [classify_domains]
    raises nothing, performs no division, and returns the mapping that
    holds exactly the domains matched by some repository's language or
    topics, each with score 0; it is the empty mapping when no repository
    matches a domain. *)
Theorem classify_domains_zero_total repositories (contributions : list Contribution) :
  Forall (λ repo, _calculate_repo_weight repo = 0) repositories →
  classify_domains repositories contributions =
    Ok (gset_to_gmap 0 (matched_domains repositories)) ∧
  (classify_domains repositories contributions = Ok ∅ ↔
   matched_domains repositories = ∅).
Proof.
  intros Hzero. rewrite classify_domains_zero_weight by exact Hzero.
  split; [reflexivity |]. split.
  - intros Heq. apply Ok_inj in Heq.
    apply (f_equal (λ m : gmap string R, dom m)) in Heq.
    rewrite dom_gset_to_gmap, dom_empty_L in Heq. exact Heq.
  - intros ->. rewrite gset_to_gmap_empty. reflexivity.
Qed.

Lemma classify_domains_zero_total_witness :
  Forall (λ repo, _calculate_repo_weight repo = 0)
         [mk_repo 0 (Some "python"%string) ["docker"%string]; mk_repo 0 None []] ∧
  (classify_domains
     [mk_repo 0 (Some "python"%string) ["docker"%string]; mk_repo 0 None []] [] =
   Ok (gset_to_gmap 0
         (matched_domains
            [mk_repo 0 (Some "python"%string) ["docker"%string]; mk_repo 0 None []])) ∧
   (classify_domains
      [mk_repo 0 (Some "python"%string) ["docker"%string]; mk_repo 0 None []] [] = Ok ∅ ↔
    matched_domains
      [mk_repo 0 (Some "python"%string) ["docker"%string]; mk_repo 0 None []] = ∅)).
Proof.
  assert (H : Forall (λ repo, _calculate_repo_weight repo = 0)
                [mk_repo 0 (Some "python"%string) ["docker"%string]; mk_repo 0 None []]).
  { repeat constructor; apply _calculate_repo_weight_zero; reflexivity. }
  split; [exact H | apply (classify_domains_zero_total _ [] H)].
Defined.

(** C4, as stated, fails: with a star count of 0 the lone ["javascript"]
    repository yields [{"Frontend": 0.0}], not [{"Frontend": 1.0}]. *)
Lemma zero_star_javascript_not_one :
  classify_domains [mk_repo 0 (Some "javascript"%string) []] [] ≠
  Ok {[ "Frontend"%string := 1 ]}.
Proof.
  rewrite zero_star_javascript_scores. intros Heq. apply Ok_inj in Heq.
  apply (f_equal (λ m : gmap string R, m !! "Frontend"%string)) in Heq.
  rewrite !lookup_singleton_eq in Heq. injection Heq as Heq. lra.
Qed.

(** C4 (amended): for a repository list containing exactly one repository
    whose language is ["javascript"], whose topic list is empty and whose
    star count is positive, [classify_domains] returns exactly
    [{"Frontend": 1.0}], whatever the positive star count. *)
Theorem single_javascript_repo_frontend repo (contributions : list Contribution) :
  language repo = Some "javascript"%string →
  default [] (topics repo) = [] →
  (0 < default 0 (stars repo))%Z →
  classify_domains [repo] contributions = Ok {[ "Frontend"%string := 1 ]}.
Proof.
  intros Hlang Htopics Hstars.
  rewrite classify_domains_single_frontend by (apply javascript_repo_domains; assumption).
  pose proof (_calculate_repo_weight_pos repo Hstars).
  destruct (Rlt_dec 0 (_calculate_repo_weight repo)); [reflexivity | contradiction].
Qed.

Lemma single_javascript_repo_frontend_witness :
  language (mk_repo 250 (Some "javascript"%string) []) = Some "javascript"%string ∧
  default [] (topics (mk_repo 250 (Some "javascript"%string) [])) = [] ∧
  (0 < default 0 (stars (mk_repo 250 (Some "javascript"%string) [])))%Z ∧
  classify_domains [mk_repo 250 (Some "javascript"%string) []] [] =
  Ok {[ "Frontend"%string := 1 ]}.
Proof.
  split; [reflexivity |]. split; [reflexivity |]. split; [cbn; lia |].
  apply (single_javascript_repo_frontend (mk_repo 250 (Some "javascript"%string) []) []);
    [reflexivity | reflexivity | cbn; lia].
Defined.

(** C9: the result of [classify_domains] depends only on the repositories:
    any two [contributions] arguments give the same result. *)
Theorem classify_domains_ignores_contributions
    repositories (contributions1 contributions2 : list Contribution) :
  classify_domains repositories contributions1 =
  classify_domains repositories contributions2.
Proof. reflexivity. Qed.

End Classifier.

(** ** NationPredictor *)

Section Predictor.

Import NationPredictor.

Implicit Types (c : list (string * nat)) (l : list string) (x y : string).

(** *** The counter *)

Lemma counter_get_incr x y c :
  counter_get y (counter_incr x c) =
  if decide (y = x) then S (counter_get y c) else counter_get y c.
Proof.
  induction c as [| [k n] c IH]; cbn.
  - destruct (decide (y = x)); reflexivity.
  - destruct (decide (x = k)) as [-> | Hxk]; cbn.
    + destruct (decide (y = k)); reflexivity.
    + destruct (decide (y = k)) as [-> | Hyk].
      * rewrite decide_False by congruence. reflexivity.
      * exact IH.
Qed.

Lemma counter_incr_keys x c :
  (counter_incr x c).*1 = if decide (x ∈ c.*1) then c.*1 else c.*1 ++ [x].
Proof.
  induction c as [| [k n] c IH]; cbn.
  - rewrite decide_False by apply not_elem_of_nil. reflexivity.
  - destruct (decide (x = k)) as [-> | Hxk]; cbn.
    + rewrite decide_True by apply list_elem_of_here. reflexivity.
    + rewrite IH. destruct (decide (x ∈ c.*1)) as [Hin | Hnin].
      * rewrite decide_True by (apply list_elem_of_further; exact Hin). reflexivity.
      * rewrite decide_False; [reflexivity |].
        rewrite elem_of_cons. intros [? | ?]; contradiction.
Qed.

Lemma counter_get_entry c y n :
  NoDup c.*1 → (y, n) ∈ c → counter_get y c = n.
Proof.
  induction c as [| [k m] c IH]; cbn; intros Hnd Hin.
  - apply elem_of_nil in Hin. contradiction.
  - apply NoDup_cons in Hnd as [Hk Hnd].
    apply elem_of_cons in Hin as [Heq | Hin].
    + injection Heq as -> ->. rewrite decide_True by reflexivity. reflexivity.
    + destruct (decide (y = k)) as [-> | Hne]; [| apply IH; assumption].
      exfalso. apply Hk. apply (list_elem_of_fmap_2 fst) in Hin. exact Hin.
Qed.

Lemma Counter_snoc l x : Counter (l ++ [x]) = counter_incr x (Counter l).
Proof. unfold Counter. rewrite foldl_app. reflexivity. Qed.

Lemma counter_get_Counter y l : counter_get y (Counter l) = occurrences y l.
Proof.
  induction l as [| x l IH] using rev_ind; [reflexivity |].
  rewrite Counter_snoc, counter_get_incr, IH. unfold occurrences.
  rewrite count_occ_app. cbn.
  destruct (decide (y = x)) as [-> | Hne].
  - destruct (string_dec x x); [lia | contradiction].
  - destruct (string_dec x y); [congruence | lia].
Qed.

Lemma Counter_keys l :
  NoDup (Counter l).*1 ∧ ∀ y, y ∈ (Counter l).*1 ↔ y ∈ l.
Proof.
  induction l as [| x l [IHnd IHin]] using rev_ind.
  - split; [apply NoDup_nil_2 |]. intros y. cbn. reflexivity.
  - rewrite Counter_snoc, counter_incr_keys.
    destruct (decide (x ∈ (Counter l).*1)) as [Hin | Hnin].
    + split; [exact IHnd |]. intros y. rewrite elem_of_app, list_elem_of_singleton, IHin.
      split; [auto |]. intros [? | ->]; [assumption |]. apply IHin. exact Hin.
    + split.
      * apply NoDup_app. split; [exact IHnd |]. split; [| apply NoDup_singleton].
        intros y Hy Hy'. apply list_elem_of_singleton in Hy'. subst. contradiction.
      * intros y. rewrite !elem_of_app, IHin. reflexivity.
Qed.

(** Every entry of the counter holds the number of occurrences of its key. *)
Lemma Counter_entry l y n :
  (y, n) ∈ Counter l → n = occurrences y l ∧ y ∈ l.
Proof.
  intros Hin. destruct (Counter_keys l) as [Hnd Hkeys]. split.
  - rewrite <- counter_get_Counter. symmetry. apply counter_get_entry; assumption.
  - apply Hkeys. apply (list_elem_of_fmap_2 fst) in Hin. exact Hin.
Qed.

(** Every element of the list has an entry. *)
Lemma Counter_complete l y :
  y ∈ l → (y, occurrences y l) ∈ Counter l.
Proof.
  intros Hin. destruct (Counter_keys l) as [Hnd Hkeys].
  apply Hkeys in Hin. apply list_elem_of_fmap in Hin as ([k n] & Hk & Hin).
  cbn in Hk. subst k.
  destruct (Counter_entry l y n Hin) as [-> _]. exact Hin.
Qed.

(** *** The most common entry *)

Lemma max_entry_spec c (p : string * nat) :
  max_entry p c ∈ p :: c ∧ ∀ q, q ∈ p :: c → (q.2 ≤ (max_entry p c).2)%nat.
Proof.
  revert p. induction c as [| q0 c IH]; intros p.
  - split; [apply list_elem_of_here |].
    intros q Hq. apply list_elem_of_singleton in Hq. subst. cbn. lia.
  - change (max_entry p (q0 :: c))
      with (max_entry (if (p.2 <? q0.2)%nat then q0 else p) c).
    destruct (IH (if (p.2 <? q0.2)%nat then q0 else p)) as [Hin Hmax].
    split.
    + apply elem_of_cons in Hin as [Heq | Hin].
      * rewrite Heq. destruct (p.2 <? q0.2)%nat.
        -- apply list_elem_of_further, list_elem_of_here.
        -- apply list_elem_of_here.
      * do 2 apply list_elem_of_further. exact Hin.
    + intros q Hq.
      assert (Hstep : (p.2 ≤ (if (p.2 <? q0.2)%nat then q0 else p).2 ∧
                       q0.2 ≤ (if (p.2 <? q0.2)%nat then q0 else p).2)%nat).
      { destruct (Nat.ltb_spec p.2 q0.2); lia. }
      pose proof (Hmax _ (list_elem_of_here _ _)) as Hfirst.
      apply elem_of_cons in Hq as [-> | Hq]; [lia |].
      apply elem_of_cons in Hq as [-> | Hq]; [lia |].
      apply Hmax. apply list_elem_of_further. exact Hq.
Qed.

Lemma most_common_1_spec c :
  c ≠ [] →
  ∃ best, most_common_1 c = [best] ∧ best ∈ c ∧ ∀ q, q ∈ c → (q.2 ≤ best.2)%nat.
Proof.
  destruct c as [| p c]; [congruence |]. intros _.
  eexists. split; [reflexivity |]. apply max_entry_spec.
Qed.

(** *** The location table *)

Lemma first_match_truthy (location : string) (table : list (string * list string)) nation :
  Forall (λ entry, str_truthy entry.1 = true) table →
  first_match location table = Some nation → str_truthy nation = true.
Proof.
  induction 1 as [| [k kws] table Hk _ IH]; cbn; [discriminate |].
  destruct (existsb _ kws); [| exact IH].
  intros [= <-]. exact Hk.
Qed.

Lemma _map_location_to_nation_truthy (location : option string) nation :
  _map_location_to_nation location = Some nation → str_truthy nation = true.
Proof.
  unfold _map_location_to_nation. destruct location as [loc |]; [| discriminate].
  destruct (str_truthy loc); [| discriminate].
  apply first_match_truthy. unfold location_mapping, _load_location_mapping.
  repeat constructor.
Qed.

Lemma _map_location_to_nation_falsy (location : option string) :
  opt_str_truthy location = false → _map_location_to_nation location = None.
Proof.
  unfold _map_location_to_nation. destruct location as [loc |]; [| reflexivity].
  cbn. intros ->. reflexivity.
Qed.

(** The list comprehension keeps exactly the locations that map. *)
Lemma mapped_nations_omap (network_locations : list string) :
  mapped_nations network_locations =
  omap (λ loc, _map_location_to_nation (Some loc)) network_locations.
Proof.
  induction network_locations as [| loc rest IH]; [reflexivity |].
  cbn [mapped_nations omap list_omap]. rewrite IH.
  destruct (_map_location_to_nation (Some loc)) as [nation |] eqn:Hmap.
  - cbn [opt_str_truthy].
    rewrite (_map_location_to_nation_truthy _ _ Hmap).
    destruct (str_truthy loc) eqn:Hloc; [reflexivity |].
    unfold _map_location_to_nation in Hmap. rewrite Hloc in Hmap. discriminate.
  - cbn [opt_str_truthy]. rewrite andb_false_r. reflexivity.
Qed.

(** *** Occurrence counts *)

Lemma occurrences_le_length x l : (occurrences x l ≤ length l)%nat.
Proof. unfold occurrences. apply count_occ_bound. Qed.

Lemma occurrences_not_elem x l : x ∉ l → occurrences x l = 0%nat.
Proof.
  intros Hx. unfold occurrences. apply count_occ_not_In.
  rewrite <- list_elem_of_In. exact Hx.
Qed.

Lemma occurrences_full x l : occurrences x l = length l ↔ Forall (eq x) l.
Proof.
  unfold occurrences. induction l as [| y l IH]; cbn.
  - split; [constructor | reflexivity].
  - pose proof (count_occ_bound string_dec x l) as Hb.
    destruct (string_dec y x) as [-> | Hne].
    + rewrite Forall_cons. split.
      * intros Heq. split; [reflexivity | apply IH; lia].
      * intros [_ Hall]. apply IH in Hall. lia.
    + split; [lia |]. intros Hall. apply Forall_cons in Hall as [-> _]. contradiction.
Qed.

(** *** The network vote *)

Local Open Scope R_scope.

Lemma _predict_from_network_none (network_locations : list string) :
  mapped_nations network_locations = [] →
  _predict_from_network network_locations = Ok ("Unknown"%string, 0).
Proof. intros Hm. unfold _predict_from_network. rewrite Hm. reflexivity. Qed.

Lemma _predict_from_network_vote (network_locations : list string) :
  mapped_nations network_locations ≠ [] →
  ∃ region,
    _predict_from_network network_locations =
      Ok (region,
          INR (occurrences region (mapped_nations network_locations)) /
          INR (length (mapped_nations network_locations))) ∧
    region ∈ mapped_nations network_locations ∧
    ∀ other, (occurrences other (mapped_nations network_locations) ≤
              occurrences region (mapped_nations network_locations))%nat.
Proof.
  intros Hne. unfold _predict_from_network.
  set (m := mapped_nations network_locations) in *.
  destruct m as [| x m'] eqn:Hm; [congruence |]. rewrite <- Hm.
  assert (Hx : x ∈ m) by (rewrite Hm; apply list_elem_of_here).
  assert (Hc : Counter m ≠ []).
  { intros Hnil. pose proof (Counter_complete m x Hx) as Hin.
    rewrite Hnil in Hin. apply elem_of_nil in Hin. exact Hin. }
  destruct (most_common_1_spec _ Hc) as ([region k] & -> & Hbest & Hmax).
  destruct (Counter_entry _ _ _ Hbest) as [-> Hregion].
  exists region. cbn.
  rewrite truediv_ok.
  - split; [reflexivity |]. split; [exact Hregion |].
    intros other. destruct (decide (other ∈ m)) as [Hin | Hnin].
    + apply (Hmax (other, occurrences other m)). apply Counter_complete. exact Hin.
    + rewrite (occurrences_not_elem _ _ Hnin). lia.
  - apply not_0_INR. rewrite Hm. cbn. lia.
Qed.

(** [predict_nation], by cases on the declared location. *)
Lemma predict_nation_cases (developer_location : option string)
    (network_locations : list string) :
  predict_nation developer_location network_locations =
  match _map_location_to_nation developer_location with
  | Some nation => Ok (nation, 1)
  | None => _predict_from_network network_locations
  end.
Proof.
  unfold predict_nation.
  destruct (opt_str_truthy developer_location) eqn:Htruthy.
  - destruct (_map_location_to_nation developer_location) as [nation |] eqn:Hmap;
      [| reflexivity].
    rewrite (_map_location_to_nation_truthy _ _ Hmap). reflexivity.
  - rewrite (_map_location_to_nation_falsy _ Htruthy). reflexivity.
Qed.

Lemma vote_share_range (k n : nat) :
  (k ≤ n)%nat → (0 < n)%nat → 0 <= INR k / INR n <= 1 ∧ (INR k / INR n = 1 ↔ k = n).
Proof.
  intros Hkn Hn.
  assert (Hn' : 0 < INR n) by (apply lt_0_INR; exact Hn).
  assert (Hk' : 0 <= INR k) by apply pos_INR.
  assert (Hkn' : INR k <= INR n) by (apply le_INR; exact Hkn).
  split; [split |].
  - apply Rmult_le_pos; [exact Hk' |]. left. apply Rinv_0_lt_compat. exact Hn'.
  - apply (Rmult_le_reg_r (INR n)); [exact Hn' |].
    replace (INR k / INR n * INR n) with (INR k) by (field; lra). lra.
  - split.
    + intros Heq. apply INR_eq.
      replace (INR k) with (INR k / INR n * INR n) by (field; lra).
      rewrite Heq. lra.
    + intros ->. field. lra.
Qed.

(** [predict_nation] never raises. *)
Lemma predict_nation_total (developer_location : option string)
    (network_locations : list string) :
  ∃ region confidence,
    predict_nation developer_location network_locations = Ok (region, confidence).
Proof.
  rewrite predict_nation_cases.
  destruct (_map_location_to_nation developer_location) as [nation |]; [eauto |].
  destruct (mapped_nations network_locations) as [| x m'] eqn:Hm.
  - rewrite _predict_from_network_none by exact Hm. eauto.
  - destruct (_predict_from_network_vote network_locations) as (region & -> & _);
      [congruence | eauto].
Qed.

(** *** The claims on [predict_nation] *)

Lemma london_vote_mapped :
  mapped_nations ["London, UK"; "london"; "unknown place"]%string =
  ["United Kingdom"; "United Kingdom"]%string.
Proof. vm_compute. reflexivity. Qed.

(** C2, as stated, fails: with an empty declared location, which maps to
    no region, the network vote over ["London, UK"], ["london"] and
    ["unknown place"] returns ["United Kingdom"] with confidence exactly
    1.0. *)
Lemma unanimous_network_vote_confidence_one :
  _map_location_to_nation (Some ""%string) = None ∧
  predict_nation (Some ""%string) ["London, UK"; "london"; "unknown place"]%string =
  Ok ("United Kingdom"%string, 1).
Proof.
  split; [reflexivity |].
  rewrite predict_nation_cases.
  change (_map_location_to_nation (Some ""%string)) with (@None string).
  unfold _predict_from_network. rewrite london_vote_mapped.
  change (Counter ["United Kingdom"; "United Kingdom"]%string)
    with [("United Kingdom"%string, 2%nat)].
  cbn [most_common_1 max_entry foldl item_0 mbind result_bind fst snd length].
  rewrite truediv_ok by (cbn; lra).
  cbn [mbind result_bind]. do 2 f_equal. cbn. field.
Qed.

(** C2 (amended): for every declared location and every list of network
    locations, [predict_nation] returns a confidence in [[0, 1]]; the
    confidence is exactly 1.0 precisely when the declared location maps
    to a canonical region, or when at least one network location maps and
    all mapped network locations map to the returned region (a unanimous
    network vote). *)
Theorem predict_nation_confidence (developer_location : option string)
    (network_locations : list string) :
  ∃ region confidence,
    predict_nation developer_location network_locations = Ok (region, confidence) ∧
    0 <= confidence <= 1 ∧
    (confidence = 1 ↔
       is_Some (_map_location_to_nation developer_location) ∨
       (mapped_nations network_locations ≠ [] ∧
        Forall (eq region) (mapped_nations network_locations))).
Proof.
  rewrite predict_nation_cases.
  destruct (_map_location_to_nation developer_location) as [nation |].
  - exists nation, 1. split; [reflexivity |]. split; [lra |].
    split; [intros _; left; eauto | reflexivity].
  - destruct (mapped_nations network_locations) as [| x m'] eqn:Hm.
    + exists "Unknown"%string, 0.
      rewrite _predict_from_network_none by exact Hm.
      split; [reflexivity |]. split; [lra |]. split; [lra |].
      intros [[? [=]] | [Hne _]]. congruence.
    + destruct (_predict_from_network_vote network_locations) as (region & -> & Hin & Hmax);
        [congruence |].
      rewrite Hm in *.
      eexists region, _. split; [reflexivity |].
      destruct (vote_share_range (occurrences region (x :: m')) (length (x :: m'))
                  (occurrences_le_length _ _) ltac:(cbn; lia)) as [Hrange Hone].
      split; [exact Hrange |].
      rewrite Hone, occurrences_full. split.
      * intros Hall. right. split; [congruence | exact Hall].
      * intros [[? [=]] | [_ Hall]]. exact Hall.
Qed.

(** C7: when the declared location is empty or maps to no region, and at
    least one network location maps to a canonical region,
    [predict_nation] returns a region of maximal count among the mapped
    regions, with confidence equal to that count divided by the number of
    successfully mapped locations (locations that map to nothing, the
    empty ones included, are dropped from the list that is counted); when
    no network location maps, it returns [("Unknown", 0.0)]. *)
Theorem predict_nation_network_vote (developer_location : option string)
    (network_locations : list string) :
  _map_location_to_nation developer_location = None →
  mapped_nations network_locations =
    omap (λ loc, _map_location_to_nation (Some loc)) network_locations ∧
  (mapped_nations network_locations = [] →
   predict_nation developer_location network_locations = Ok ("Unknown"%string, 0)) ∧
  (mapped_nations network_locations ≠ [] →
   ∃ region,
     predict_nation developer_location network_locations =
       Ok (region,
           INR (occurrences region (mapped_nations network_locations)) /
           INR (length (mapped_nations network_locations))) ∧
     region ∈ mapped_nations network_locations ∧
     ∀ other, (occurrences other (mapped_nations network_locations) ≤
               occurrences region (mapped_nations network_locations))%nat).
Proof.
  intros Hnone. rewrite predict_nation_cases, Hnone.
  split; [apply mapped_nations_omap |]. split.
  - apply _predict_from_network_none.
  - apply _predict_from_network_vote.
Qed.

Lemma predict_nation_network_vote_witness :
  _map_location_to_nation (Some "Atlantis"%string) = None ∧
  (mapped_nations ["Mumbai"; ""; "nowhere"; "Delhi, India"; "Shanghai"]%string =
     omap (λ loc, _map_location_to_nation (Some loc))
          ["Mumbai"; ""; "nowhere"; "Delhi, India"; "Shanghai"]%string ∧
   (mapped_nations ["Mumbai"; ""; "nowhere"; "Delhi, India"; "Shanghai"]%string = [] →
    predict_nation (Some "Atlantis"%string)
      ["Mumbai"; ""; "nowhere"; "Delhi, India"; "Shanghai"]%string =
    Ok ("Unknown"%string, 0)) ∧
   (mapped_nations ["Mumbai"; ""; "nowhere"; "Delhi, India"; "Shanghai"]%string ≠ [] →
    ∃ region,
      predict_nation (Some "Atlantis"%string)
        ["Mumbai"; ""; "nowhere"; "Delhi, India"; "Shanghai"]%string =
        Ok (region,
            INR (occurrences region
                   (mapped_nations
                      ["Mumbai"; ""; "nowhere"; "Delhi, India"; "Shanghai"]%string)) /
            INR (length
                   (mapped_nations
                      ["Mumbai"; ""; "nowhere"; "Delhi, India"; "Shanghai"]%string))) ∧
      region ∈ mapped_nations
                 ["Mumbai"; ""; "nowhere"; "Delhi, India"; "Shanghai"]%string ∧
      ∀ other,
        (occurrences other
           (mapped_nations ["Mumbai"; ""; "nowhere"; "Delhi, India"; "Shanghai"]%string) ≤
         occurrences region
           (mapped_nations ["Mumbai"; ""; "nowhere"; "Delhi, India"; "Shanghai"]%string))%nat)).
Proof.
  split; [vm_compute; reflexivity |].
  apply (predict_nation_network_vote (Some "Atlantis"%string)
           ["Mumbai"; ""; "nowhere"; "Delhi, India"; "Shanghai"]%string).
  vm_compute. reflexivity.
Defined.

(** C10: whenever the declared location is non-empty and maps to a
    canonical region, the result of [predict_nation] does not depend on
    the network locations: any two lists give the same pair, namely that
    region with confidence 1.0. *)
Theorem predict_nation_declared_wins (developer_location : option string)
    (nation : string) (network_locations1 network_locations2 : list string) :
  opt_str_truthy developer_location = true →
  _map_location_to_nation developer_location = Some nation →
  predict_nation developer_location network_locations1 =
    predict_nation developer_location network_locations2 ∧
  predict_nation developer_location network_locations1 = Ok (nation, 1).
Proof.
  intros _ Hmap. rewrite !predict_nation_cases, Hmap. split; reflexivity.
Qed.

Lemma predict_nation_declared_wins_witness :
  opt_str_truthy (Some "Beijing, China"%string) = true ∧
  _map_location_to_nation (Some "Beijing, China"%string) = Some "China"%string ∧
  (predict_nation (Some "Beijing, China"%string) [] =
     predict_nation (Some "Beijing, China"%string) ["London, UK"; "london"]%string ∧
   predict_nation (Some "Beijing, China"%string) [] = Ok ("China"%string, 1)).
Proof.
  split; [reflexivity |]. split; [vm_compute; reflexivity |].
  apply (predict_nation_declared_wins (Some "Beijing, China"%string) "China"%string
           [] ["London, UK"; "london"]%string);
    [reflexivity | vm_compute; reflexivity].
Defined.

End Predictor.

(** ** DeveloperAnalyzer *)

Section Analysis.

Import DomainClassifier DeveloperAnalyzer.

Variable get_user : string → GitHubDataCollector.NamedUser.
Variable get_repo : string → GitHubDataCollector.Repository.
Variable clock now : Z.

(** C8 (defect of the code): with the collector of the repository, whose
    methods are plain [def]s, [analyze_developer] raises [TypeError] at
    its first [await] for every developer, one without repositories
    included, instead of returning a record with [talent_rank == 0] and
    an empty [domains] map.  The two parts the claim builds on do what it
    says: [_calculate_talent_rank] of an empty repository list is 0, with
    no division, and [classify_domains] of empty lists is the empty
    mapping. *)
Theorem analyze_developer_awaits_plain_object (user : string) :
  analyze_developer
    (GitHubDataCollector.get_developer_profile get_user)
    (GitHubDataCollector.get_repository_metrics get_repo)
    (GitHubDataCollector.get_developer_contributions get_user get_repo clock)
    now user = Raise TypeError ∧
  _calculate_talent_rank
    (GitHubDataCollector.get_repository_metrics get_repo)
    (GitHubDataCollector.get_developer_contributions get_user get_repo clock)
    user [] = Ok 0%R ∧
  classify_domains [] [] = Ok ∅.
Proof.
  split; [reflexivity |]. split; [reflexivity |]. apply classify_domains_nil.
Qed.

End Analysis.

(** * Further properties of the code *)

(** ** ScoreCalculator: the normalizer and the two sub-scores *)

Section Scores.

Import ScoreCalculator.

Local Open Scope R_scope.

Lemma _normalize_value_normalized (value baseline : Z) :
  (0 < baseline)%Z → _normalize_value value baseline = Ok (normalized value baseline).
Proof.
  intros Hb. unfold normalized. destruct (Z_le_dec value 0) as [Hv | Hv].
  - apply _normalize_value_nonpos. exact Hv.
  - apply _normalize_value_pos; lia.
Qed.

Lemma log_ratio_pos (value baseline : Z) :
  (0 < value)%Z → (0 < baseline)%Z → 0 < log_ratio value baseline.
Proof.
  intros Hv Hb. unfold log_ratio.
  pose proof (ln_IZR_pos (baseline + 1) ltac:(lia)) as Hlb.
  pose proof (ln_IZR_pos (value + 1) ltac:(lia)) as Hlv.
  apply Rmult_lt_0_compat; [| lra].
  apply Rdiv_lt_0_compat; assumption.
Qed.

Lemma log_ratio_strict (v1 v2 baseline : Z) :
  (0 <= v1)%Z → (v1 < v2)%Z → (0 < baseline)%Z →
  log_ratio v1 baseline < log_ratio v2 baseline.
Proof.
  intros H1 H12 Hb. unfold log_ratio.
  pose proof (ln_IZR_pos (baseline + 1) ltac:(lia)) as Hlb.
  assert (Hlt : ln (IZR (v1 + 1)) < ln (IZR (v2 + 1))).
  { apply ln_increasing; [apply (IZR_lt 0); lia | apply IZR_lt; lia]. }
  apply Rmult_lt_compat_r; [lra |].
  apply Rmult_lt_compat_r; [| exact Hlt].
  apply Rinv_0_lt_compat. exact Hlb.
Qed.

Lemma normalized_range (value baseline : Z) :
  (0 < baseline)%Z → 0 <= normalized value baseline <= 100.
Proof.
  intros Hb. unfold normalized. destruct (Z_le_dec value 0) as [Hv | Hv]; [lra |].
  pose proof (log_ratio_nonneg value baseline ltac:(lia) Hb).
  split; [apply Rmin_glb; lra | apply Rmin_l].
Qed.

Lemma normalized_mono (v1 v2 baseline : Z) :
  (0 < baseline)%Z → (v1 <= v2)%Z → normalized v1 baseline <= normalized v2 baseline.
Proof.
  intros Hb H12. pose proof (normalized_range v2 baseline Hb) as [Hlo _].
  unfold normalized in *.
  destruct (Z_le_dec v1 0) as [H1 | H1]; [exact Hlo |].
  destruct (Z_le_dec v2 0) as [H2 | H2]; [lia |].
  pose proof (log_ratio_mono v1 v2 baseline ltac:(lia) H12 Hb).
  apply Rmin_glb; [apply Rmin_l |].
  eapply Rle_trans; [apply Rmin_r | assumption].
Qed.

Lemma normalized_100_iff (value baseline : Z) :
  (0 < baseline)%Z → normalized value baseline = 100 ↔ (baseline <= value)%Z.
Proof.
  intros Hb. rewrite <- (_normalize_value_100_iff value baseline Hb).
  rewrite _normalize_value_normalized by exact Hb. split.
  - intros ->. reflexivity.
  - apply Ok_inj.
Qed.

Lemma normalized_0_iff (value baseline : Z) :
  (0 < baseline)%Z → normalized value baseline = 0 ↔ (value <= 0)%Z.
Proof.
  intros Hb. unfold normalized. destruct (Z_le_dec value 0) as [Hv | Hv].
  - split; [intros _; exact Hv | reflexivity].
  - pose proof (log_ratio_pos value baseline ltac:(lia) Hb) as Hpos.
    split; [| lia]. intros Heq.
    assert (0 < Rmin 100 (log_ratio value baseline)) by (apply Rmin_glb_lt; lra).
    lra.
Qed.

(** X1: the complete behaviour of [_normalize_value], errors included.  A
    value [<= 0] gives 0 whatever the baseline is; for a positive value a
    negative baseline raises [ValueError] (logarithm of a number [<= 0]),
    the baseline 0 raises [ZeroDivisionError] (division by [log 1]), and
    a positive baseline gives the clamped logarithmic ratio. *)
Theorem _normalize_value_cases (value baseline : Z) :
  _normalize_value value baseline =
  if Z_le_dec value 0 then Ok 0
  else if Z_lt_dec baseline 0 then Raise ValueError
  else if Z.eq_dec baseline 0%Z then Raise ZeroDivisionError
  else Ok (Rmin 100 (log_ratio value baseline)).
Proof.
  destruct (Z_le_dec value 0) as [Hv | Hv].
  - apply _normalize_value_nonpos. exact Hv.
  - destruct (Z_lt_dec baseline 0) as [Hneg | Hnneg].
    + unfold _normalize_value. destruct (Z_le_dec value 0); [lia |].
      rewrite (math_log_ok (value + 1)) by lia. cbn.
      unfold math_log. destruct (Z_le_dec (baseline + 1) 0); [reflexivity | lia].
    + destruct (Z.eq_dec baseline 0%Z) as [-> | Hnz].
      * unfold _normalize_value. destruct (Z_le_dec value 0); [lia |].
        rewrite (math_log_ok (value + 1)) by lia. cbn.
        rewrite (math_log_ok (0 + 1)) by lia. cbn [mbind result_bind].
        change (IZR (0 + 1)) with (IZR 1). rewrite ln_1.
        unfold truediv. destruct (Req_dec_T 0 0); [reflexivity | contradiction].
      * apply _normalize_value_pos; lia.
Qed.

(** X2: for each baseline that the code uses (1000, 500, 200, 100, 50,
    30, 40) the normalizer is strictly increasing below the baseline:
    for [0 <= v1 < v2 <= b], [normalize(v1, b) < normalize(v2, b)]. *)
Theorem _normalize_value_strict_below_baseline (v1 v2 baseline : Z) :
  baseline ∈ baselines →
  (0 <= v1)%Z → (v1 < v2)%Z → (v2 <= baseline)%Z →
  ∃ r1 r2, _normalize_value v1 baseline = Ok r1 ∧
           _normalize_value v2 baseline = Ok r2 ∧ r1 < r2.
Proof.
  intros _ H1 H12 H2b.
  assert (Hb : (0 < baseline)%Z) by lia.
  exists (normalized v1 baseline), (normalized v2 baseline).
  rewrite !_normalize_value_normalized by exact Hb.
  split; [reflexivity |]. split; [reflexivity |].
  assert (Hle : log_ratio v2 baseline <= 100).
  { destruct (Z.eq_dec v2 baseline) as [-> | Hne].
    - unfold log_ratio. pose proof (ln_IZR_pos (baseline + 1) ltac:(lia)).
      right. field. lra.
    - destruct (Rle_lt_dec 100 (log_ratio v2 baseline)) as [Hge | Hlt]; [| lra].
      apply log_ratio_ge_100 in Hge; lia. }
  unfold normalized. destruct (Z_le_dec v2 0); [lia |].
  rewrite (Rmin_right 100 (log_ratio v2 baseline)) by exact Hle.
  destruct (Z_le_dec v1 0).
  - apply log_ratio_pos; lia.
  - eapply Rle_lt_trans; [apply Rmin_r |]. apply log_ratio_strict; lia.
Qed.

Lemma _normalize_value_strict_below_baseline_witness :
  100%Z ∈ baselines ∧ (0 <= 10)%Z ∧ (10 < 99)%Z ∧ (99 <= 100)%Z ∧
  ∃ r1 r2, _normalize_value 10 100 = Ok r1 ∧ _normalize_value 99 100 = Ok r2 ∧ r1 < r2.
Proof.
  assert (H : 100%Z ∈ baselines).
  { unfold baselines. do 3 apply list_elem_of_further. apply list_elem_of_here. }
  split; [exact H |]. split; [lia |]. split; [lia |]. split; [lia |].
  apply (_normalize_value_strict_below_baseline 10 99 100 H); lia.
Defined.

(** The weighted sums behind the two sub-scores. *)
Lemma calculate_project_importance_sum (metrics : ProjectMetrics) :
  calculate_project_importance metrics =
  Ok (normalized (stars metrics) 1000 * 0.4 +
      normalized (forks metrics) 500 * 0.3 +
      normalized (watchers metrics) 200 * 0.3).
Proof.
  unfold calculate_project_importance.
  rewrite !_normalize_value_normalized by lia. cbn.
  pose proof (normalized_range (stars metrics) 1000 ltac:(lia)).
  pose proof (normalized_range (forks metrics) 500 ltac:(lia)).
  pose proof (normalized_range (watchers metrics) 200 ltac:(lia)).
  f_equal. apply Rmin_left. lra.
Qed.

Lemma calculate_developer_contribution_sum (metrics : DeveloperMetrics) :
  calculate_developer_contribution metrics =
  Ok (normalized (commits metrics) 100 * 0.3 +
      normalized (resolved_issues metrics) 50 * 0.25 +
      normalized (pull_requests metrics) 30 * 0.25 +
      normalized (code_reviews metrics) 40 * 0.2).
Proof.
  unfold calculate_developer_contribution.
  rewrite !_normalize_value_normalized by lia. cbn.
  pose proof (normalized_range (commits metrics) 100 ltac:(lia)).
  pose proof (normalized_range (resolved_issues metrics) 50 ltac:(lia)).
  pose proof (normalized_range (pull_requests metrics) 30 ltac:(lia)).
  pose proof (normalized_range (code_reviews metrics) 40 ltac:(lia)).
  f_equal. apply Rmin_left. lra.
Qed.

Lemma calculate_project_importance_range (metrics : ProjectMetrics) :
  ∃ score, calculate_project_importance metrics = Ok score ∧ 0 <= score <= 100.
Proof.
  rewrite calculate_project_importance_sum. eexists. split; [reflexivity |].
  pose proof (normalized_range (stars metrics) 1000 ltac:(lia)).
  pose proof (normalized_range (forks metrics) 500 ltac:(lia)).
  pose proof (normalized_range (watchers metrics) 200 ltac:(lia)).
  lra.
Qed.

Lemma calculate_developer_contribution_range (metrics : DeveloperMetrics) :
  ∃ score, calculate_developer_contribution metrics = Ok score ∧ 0 <= score <= 100.
Proof.
  rewrite calculate_developer_contribution_sum. eexists. split; [reflexivity |].
  pose proof (normalized_range (commits metrics) 100 ltac:(lia)).
  pose proof (normalized_range (resolved_issues metrics) 50 ltac:(lia)).
  pose proof (normalized_range (pull_requests metrics) 30 ltac:(lia)).
  pose proof (normalized_range (code_reviews metrics) 40 ltac:(lia)).
  lra.
Qed.

(** X3: [calculate_project_importance] raises nothing and returns a score
    in [[0, 100]] for every metrics record, negative counts included; the
    final [min(score, 100)] never cuts anything off, the score is the
    plain weighted sum 0.4/0.3/0.3 of the three normalized metrics. *)
Theorem project_importance_in_range (metrics : ProjectMetrics) :
  ∃ n_stars n_forks n_watchers,
    _normalize_value (stars metrics) 1000 = Ok n_stars ∧
    _normalize_value (forks metrics) 500 = Ok n_forks ∧
    _normalize_value (watchers metrics) 200 = Ok n_watchers ∧
    calculate_project_importance metrics =
      Ok (n_stars * 0.4 + n_forks * 0.3 + n_watchers * 0.3) ∧
    0 <= n_stars * 0.4 + n_forks * 0.3 + n_watchers * 0.3 <= 100.
Proof.
  exists (normalized (stars metrics) 1000), (normalized (forks metrics) 500),
    (normalized (watchers metrics) 200).
  rewrite !_normalize_value_normalized by lia.
  rewrite calculate_project_importance_sum.
  repeat (split; [reflexivity |]).
  pose proof (normalized_range (stars metrics) 1000 ltac:(lia)).
  pose proof (normalized_range (forks metrics) 500 ltac:(lia)).
  pose proof (normalized_range (watchers metrics) 200 ltac:(lia)).
  lra.
Qed.

(** X4: the project score is exactly 100 precisely when every metric has
    reached its baseline (1000 stars, 500 forks, 200 watchers), and
    exactly 0 precisely when no metric is positive. *)
Theorem project_importance_extremes (metrics : ProjectMetrics) :
  (calculate_project_importance metrics = Ok 100 ↔
     (1000 <= stars metrics)%Z ∧ (500 <= forks metrics)%Z ∧
     (200 <= watchers metrics)%Z) ∧
  (calculate_project_importance metrics = Ok 0 ↔
     (stars metrics <= 0)%Z ∧ (forks metrics <= 0)%Z ∧ (watchers metrics <= 0)%Z).
Proof.
  rewrite calculate_project_importance_sum.
  pose proof (normalized_range (stars metrics) 1000 ltac:(lia)) as Hs.
  pose proof (normalized_range (forks metrics) 500 ltac:(lia)) as Hf.
  pose proof (normalized_range (watchers metrics) 200 ltac:(lia)) as Hw.
  rewrite <- (normalized_100_iff (stars metrics) 1000) by lia.
  rewrite <- (normalized_100_iff (forks metrics) 500) by lia.
  rewrite <- (normalized_100_iff (watchers metrics) 200) by lia.
  rewrite <- (normalized_0_iff (stars metrics) 1000) by lia.
  rewrite <- (normalized_0_iff (forks metrics) 500) by lia.
  rewrite <- (normalized_0_iff (watchers metrics) 200) by lia.
  split; split.
  - intros Heq. apply Ok_inj in Heq. repeat split; lra.
  - intros (-> & -> & ->). f_equal. lra.
  - intros Heq. apply Ok_inj in Heq. repeat split; lra.
  - intros (-> & -> & ->). f_equal. lra.
Qed.

(** X5: the project score is monotone: raising any of the three metrics
    never lowers it. *)
Theorem project_importance_monotone (m1 m2 : ProjectMetrics) :
  (stars m1 <= stars m2)%Z → (forks m1 <= forks m2)%Z →
  (watchers m1 <= watchers m2)%Z →
  ∃ s1 s2, calculate_project_importance m1 = Ok s1 ∧
           calculate_project_importance m2 = Ok s2 ∧ s1 <= s2.
Proof.
  intros Hs Hf Hw. rewrite !calculate_project_importance_sum.
  eexists _, _. split; [reflexivity |]. split; [reflexivity |].
  pose proof (normalized_mono _ _ 1000 ltac:(lia) Hs).
  pose proof (normalized_mono _ _ 500 ltac:(lia) Hf).
  pose proof (normalized_mono _ _ 200 ltac:(lia) Hw).
  lra.
Qed.

Lemma project_importance_monotone_witness :
  (stars {| stars := 10; forks := 0; watchers := 3 |} <=
   stars {| stars := 2500; forks := 40; watchers := 3 |})%Z ∧
  (forks {| stars := 10; forks := 0; watchers := 3 |} <=
   forks {| stars := 2500; forks := 40; watchers := 3 |})%Z ∧
  (watchers {| stars := 10; forks := 0; watchers := 3 |} <=
   watchers {| stars := 2500; forks := 40; watchers := 3 |})%Z ∧
  ∃ s1 s2,
    calculate_project_importance {| stars := 10; forks := 0; watchers := 3 |} = Ok s1 ∧
    calculate_project_importance {| stars := 2500; forks := 40; watchers := 3 |} = Ok s2 ∧
    s1 <= s2.
Proof.
  split; [cbn; lia |]. split; [cbn; lia |]. split; [cbn; lia |].
  apply (project_importance_monotone
           {| stars := 10; forks := 0; watchers := 3 |}
           {| stars := 2500; forks := 40; watchers := 3 |}); cbn; lia.
Defined.

(** X6: [calculate_developer_contribution] raises nothing and returns a
    score in [[0, 100]] for every metrics record; the final clamp never
    cuts anything off, the score is the plain weighted sum
    0.3/0.25/0.25/0.2 of the four normalized metrics. *)
Theorem developer_contribution_in_range (metrics : DeveloperMetrics) :
  ∃ n_commits n_issues n_prs n_reviews,
    _normalize_value (commits metrics) 100 = Ok n_commits ∧
    _normalize_value (resolved_issues metrics) 50 = Ok n_issues ∧
    _normalize_value (pull_requests metrics) 30 = Ok n_prs ∧
    _normalize_value (code_reviews metrics) 40 = Ok n_reviews ∧
    calculate_developer_contribution metrics =
      Ok (n_commits * 0.3 + n_issues * 0.25 + n_prs * 0.25 + n_reviews * 0.2) ∧
    0 <= n_commits * 0.3 + n_issues * 0.25 + n_prs * 0.25 + n_reviews * 0.2 <= 100.
Proof.
  exists (normalized (commits metrics) 100), (normalized (resolved_issues metrics) 50),
    (normalized (pull_requests metrics) 30), (normalized (code_reviews metrics) 40).
  rewrite !_normalize_value_normalized by lia.
  rewrite calculate_developer_contribution_sum.
  repeat (split; [reflexivity |]).
  pose proof (normalized_range (commits metrics) 100 ltac:(lia)).
  pose proof (normalized_range (resolved_issues metrics) 50 ltac:(lia)).
  pose proof (normalized_range (pull_requests metrics) 30 ltac:(lia)).
  pose proof (normalized_range (code_reviews metrics) 40 ltac:(lia)).
  lra.
Qed.

(** X7: the contribution score is exactly 100 precisely when every metric
    has reached its baseline (100 commits, 50 resolved issues, 30 pull
    requests, 40 code reviews), and exactly 0 precisely when no metric is
    positive. *)
Theorem developer_contribution_extremes (metrics : DeveloperMetrics) :
  (calculate_developer_contribution metrics = Ok 100 ↔
     (100 <= commits metrics)%Z ∧ (50 <= resolved_issues metrics)%Z ∧
     (30 <= pull_requests metrics)%Z ∧ (40 <= code_reviews metrics)%Z) ∧
  (calculate_developer_contribution metrics = Ok 0 ↔
     (commits metrics <= 0)%Z ∧ (resolved_issues metrics <= 0)%Z ∧
     (pull_requests metrics <= 0)%Z ∧ (code_reviews metrics <= 0)%Z).
Proof.
  rewrite calculate_developer_contribution_sum.
  pose proof (normalized_range (commits metrics) 100 ltac:(lia)) as Hc.
  pose proof (normalized_range (resolved_issues metrics) 50 ltac:(lia)) as Hi.
  pose proof (normalized_range (pull_requests metrics) 30 ltac:(lia)) as Hp.
  pose proof (normalized_range (code_reviews metrics) 40 ltac:(lia)) as Hr.
  rewrite <- (normalized_100_iff (commits metrics) 100) by lia.
  rewrite <- (normalized_100_iff (resolved_issues metrics) 50) by lia.
  rewrite <- (normalized_100_iff (pull_requests metrics) 30) by lia.
  rewrite <- (normalized_100_iff (code_reviews metrics) 40) by lia.
  rewrite <- (normalized_0_iff (commits metrics) 100) by lia.
  rewrite <- (normalized_0_iff (resolved_issues metrics) 50) by lia.
  rewrite <- (normalized_0_iff (pull_requests metrics) 30) by lia.
  rewrite <- (normalized_0_iff (code_reviews metrics) 40) by lia.
  split; split.
  - intros Heq. apply Ok_inj in Heq. repeat split; lra.
  - intros (-> & -> & -> & ->). f_equal. lra.
  - intros Heq. apply Ok_inj in Heq. repeat split; lra.
  - intros (-> & -> & -> & ->). f_equal. lra.
Qed.

(** X8: the contribution score is monotone: raising any of the four
    metrics never lowers it. *)
Theorem developer_contribution_monotone (m1 m2 : DeveloperMetrics) :
  (commits m1 <= commits m2)%Z → (resolved_issues m1 <= resolved_issues m2)%Z →
  (pull_requests m1 <= pull_requests m2)%Z → (code_reviews m1 <= code_reviews m2)%Z →
  ∃ s1 s2, calculate_developer_contribution m1 = Ok s1 ∧
           calculate_developer_contribution m2 = Ok s2 ∧ s1 <= s2.
Proof.
  intros Hc Hi Hp Hr. rewrite !calculate_developer_contribution_sum.
  eexists _, _. split; [reflexivity |]. split; [reflexivity |].
  pose proof (normalized_mono _ _ 100 ltac:(lia) Hc).
  pose proof (normalized_mono _ _ 50 ltac:(lia) Hi).
  pose proof (normalized_mono _ _ 30 ltac:(lia) Hp).
  pose proof (normalized_mono _ _ 40 ltac:(lia) Hr).
  lra.
Qed.

Lemma developer_contribution_monotone_witness :
  (commits {| commits := 5; resolved_issues := 1; pull_requests := 0; code_reviews := 2 |} <=
   commits {| commits := 120; resolved_issues := 1; pull_requests := 7; code_reviews := 2 |})%Z ∧
  (resolved_issues
     {| commits := 5; resolved_issues := 1; pull_requests := 0; code_reviews := 2 |} <=
   resolved_issues
     {| commits := 120; resolved_issues := 1; pull_requests := 7; code_reviews := 2 |})%Z ∧
  (pull_requests
     {| commits := 5; resolved_issues := 1; pull_requests := 0; code_reviews := 2 |} <=
   pull_requests
     {| commits := 120; resolved_issues := 1; pull_requests := 7; code_reviews := 2 |})%Z ∧
  (code_reviews
     {| commits := 5; resolved_issues := 1; pull_requests := 0; code_reviews := 2 |} <=
   code_reviews
     {| commits := 120; resolved_issues := 1; pull_requests := 7; code_reviews := 2 |})%Z ∧
  ∃ s1 s2,
    calculate_developer_contribution
      {| commits := 5; resolved_issues := 1; pull_requests := 0; code_reviews := 2 |} = Ok s1 ∧
    calculate_developer_contribution
      {| commits := 120; resolved_issues := 1; pull_requests := 7; code_reviews := 2 |} = Ok s2 ∧
    s1 <= s2.
Proof.
  split; [cbn; lia |]. split; [cbn; lia |]. split; [cbn; lia |]. split; [cbn; lia |].
  apply (developer_contribution_monotone
           {| commits := 5; resolved_issues := 1; pull_requests := 0; code_reviews := 2 |}
           {| commits := 120; resolved_issues := 1; pull_requests := 7; code_reviews := 2 |});
    cbn; lia.
Defined.

(** X9: for two scores in [[0, 100]] and an activity factor in
    [[0, 1]], [calculate_final_score] is in [[0, 100]]. *)
Theorem final_score_bounds (project_score contribution_score activity_factor : R) :
  0 <= project_score <= 100 → 0 <= contribution_score <= 100 →
  0 <= activity_factor <= 1 →
  0 <= calculate_final_score project_score contribution_score activity_factor <= 100.
Proof.
  intros Hp Hc Ha. unfold calculate_final_score. split.
  - apply Rmult_le_pos; lra.
  - assert (Hs : 0 <= project_score * 0.4 + contribution_score * 0.6 <= 100) by lra.
    assert (Hm : (project_score * 0.4 + contribution_score * 0.6) * activity_factor
                 <= 100 * 1).
    { apply Rmult_le_compat; lra. }
    lra.
Qed.

Lemma final_score_bounds_witness :
  0 <= 80 <= 100 ∧ 0 <= 40 <= 100 ∧ 0 <= 0.5 <= 1 ∧
  0 <= calculate_final_score 80 40 0.5 <= 100.
Proof.
  split; [lra |]. split; [lra |]. split; [lra |].
  apply (final_score_bounds 80 40 0.5); lra.
Defined.

End Scores.

(** ** DomainClassifier: matching and the shape of the result *)

Section Matching.

Import DomainClassifier.

Local Open Scope R_scope.

Implicit Types (repo : Repo) (repositories : list Repo) (domain : string).

Lemma ascii_lower_idemp (c : ascii) : ascii_lower (ascii_lower c) = ascii_lower c.
Proof. destruct c as [[] [] [] [] [] [] [] []]; reflexivity. Qed.

Lemma lower_idemp (s : string) : lower (lower s) = lower s.
Proof.
  induction s as [| c s IH]; [reflexivity |].
  cbn. rewrite ascii_lower_idemp, IH. reflexivity.
Qed.

Lemma prefix_refl (s : string) : String.prefix s s = true.
Proof.
  induction s as [| c s IH]; [reflexivity |].
  cbn. destruct (Ascii.ascii_dec c c); [exact IH | contradiction].
Qed.

Lemma str_contains_refl (s : string) : str_contains s s = true.
Proof.
  destruct s as [| c s]; [reflexivity |].
  change (str_contains (String c s) (String c s))
    with (String.prefix (String c s) (String c s) || str_contains (String c s) s).
  rewrite prefix_refl. reflexivity.
Qed.

(** One pass over a keyword table that adds the label of every entry
    whose keyword list satisfies [matches]. *)
Lemma table_pass_elem (matches : list string → bool)
    (table : list (string * list string)) (acc : gset string) domain :
  domain ∈ foldl (λ (domains : gset string) '(label, keywords),
                    if matches keywords then domains ∪ {[ label ]} else domains)
                 acc table
  ↔ domain ∈ acc ∨ ∃ keywords, (domain, keywords) ∈ table ∧ matches keywords = true.
Proof.
  revert acc. induction table as [| [label keywords] table IH]; intros acc; cbn [foldl].
  - split; [auto |]. intros [Hin | (kws & Hin & _)]; [exact Hin |].
    apply elem_of_nil in Hin. contradiction.
  - rewrite IH. split.
    + intros [Hin | (kws & Hin & Hm)].
      * destruct (matches keywords) eqn:Hm; [| auto].
        apply elem_of_union in Hin as [Hin | Hin]; [auto |].
        apply elem_of_singleton in Hin. subst. right. exists keywords.
        split; [apply list_elem_of_here | exact Hm].
      * right. exists kws. split; [apply list_elem_of_further; exact Hin | exact Hm].
    + intros [Hin | (kws & Hin & Hm)].
      * left. destruct (matches keywords); [apply elem_of_union; auto | exact Hin].
      * apply elem_of_cons in Hin as [Heq | Hin].
        -- injection Heq as -> ->. left. rewrite Hm.
           apply elem_of_union. right. apply elem_of_singleton. reflexivity.
        -- right. eauto.
Qed.

Lemma _classify_by_language_elem (language : string) domain :
  domain ∈ _classify_by_language language ↔
  ∃ keywords, (domain, keywords) ∈ domain_keywords ∧ lower language ∈ keywords.
Proof.
  unfold _classify_by_language.
  rewrite (table_pass_elem (λ keywords, bool_decide (lower language ∈ keywords))).
  split.
  - intros [Hin | (kws & Hin & Hm)]; [apply elem_of_empty in Hin; contradiction |].
    exists kws. split; [exact Hin |]. apply bool_decide_eq_true in Hm. exact Hm.
  - intros (kws & Hin & Hm). right. exists kws. split; [exact Hin |].
    apply bool_decide_eq_true. exact Hm.
Qed.

Lemma existsb_contains (keywords : list string) (text : string) :
  existsb (λ keyword, str_contains keyword text) keywords = true ↔
  ∃ keyword, keyword ∈ keywords ∧ str_contains keyword text = true.
Proof.
  rewrite existsb_exists. split; intros (k & Hin & Hc); exists k;
    (split; [apply list_elem_of_In; exact Hin | exact Hc]).
Qed.

Lemma _classify_by_topics_elem (topics : list string) domain :
  domain ∈ _classify_by_topics topics ↔
  ∃ topic keywords keyword,
    topic ∈ topics ∧ (domain, keywords) ∈ domain_keywords ∧
    keyword ∈ keywords ∧ str_contains keyword (lower topic) = true.
Proof.
  unfold _classify_by_topics.
  assert (Hgen : ∀ acc : gset string,
    domain ∈ foldl (λ (domains : gset string) topic,
                      let topic := lower topic in
                      foldl (λ (domains : gset string) '(label, keywords),
                               if existsb (λ keyword, str_contains keyword topic) keywords
                               then domains ∪ {[ label ]} else domains)
                            domains domain_keywords)
                   acc topics
    ↔ domain ∈ acc ∨
      ∃ topic keywords keyword,
        topic ∈ topics ∧ (domain, keywords) ∈ domain_keywords ∧
        keyword ∈ keywords ∧ str_contains keyword (lower topic) = true).
  { induction topics as [| topic topics IH]; intros acc; cbn [foldl].
    - split; [auto |]. intros [Hin | (t & _ & _ & Hin & _)]; [exact Hin |].
      apply elem_of_nil in Hin. contradiction.
    - rewrite IH.
      rewrite (table_pass_elem
                 (λ keywords, existsb (λ keyword, str_contains keyword (lower topic))
                                      keywords)).
      split.
      + intros [[Hin | (kws & Hin & Hm)] | (t & kws & k & Ht & Hrest)].
        * auto.
        * apply existsb_contains in Hm as (k & Hk & Hc).
          right. exists topic, kws, k. split; [apply list_elem_of_here | auto].
        * right. exists t, kws, k. split; [apply list_elem_of_further; exact Ht | exact Hrest].
      + intros [Hin | (t & kws & k & Ht & Hd & Hk & Hc)]; [auto |].
        apply elem_of_cons in Ht as [-> | Ht].
        * left. right. exists kws. split; [exact Hd |].
          apply existsb_contains. eauto.
        * right. exists t, kws, k. auto. }
  rewrite Hgen. split; [| auto].
  intros [Hin | H]; [apply elem_of_empty in Hin; contradiction | exact H].
Qed.

(** X10: a language matches a domain exactly when its lower-cased form
    is equal to one of the domain's keywords (the whole string, not a
    substring); the letter case of the language never matters. *)
Theorem _classify_by_language_exact_match (language : string) :
  (∀ domain,
     domain ∈ _classify_by_language language ↔
     ∃ keywords, (domain, keywords) ∈ domain_keywords ∧ lower language ∈ keywords) ∧
  _classify_by_language (lower language) = _classify_by_language language.
Proof.
  split; [apply _classify_by_language_elem |].
  apply set_eq. intros domain.
  rewrite !_classify_by_language_elem, lower_idemp. reflexivity.
Qed.

(** X11: a list of topics matches a domain exactly when some keyword of
    the domain occurs as a substring of some lower-cased topic. *)
Theorem _classify_by_topics_substring_match (topics : list string) domain :
  domain ∈ _classify_by_topics topics ↔
  ∃ topic keywords keyword,
    topic ∈ topics ∧ (domain, keywords) ∈ domain_keywords ∧
    keyword ∈ keywords ∧ str_contains keyword (lower topic) = true.
Proof. apply _classify_by_topics_elem. Qed.

(** X12: topic matching is at least as permissive as language matching:
    every domain that a string matches as a language it also matches as
    a single topic. *)
Theorem language_match_implies_topic_match (text : string) :
  _classify_by_language text ⊆ _classify_by_topics [text].
Proof.
  intros domain. rewrite _classify_by_language_elem, _classify_by_topics_elem.
  intros (kws & Hd & Hk). exists text, kws, (lower text).
  split; [apply list_elem_of_here |]. split; [exact Hd |]. split; [exact Hk |].
  apply str_contains_refl.
Qed.

Lemma domain_keywords_labels domain (keywords : list string) :
  (domain, keywords) ∈ domain_keywords →
  domain ∈ ({[ "Frontend"; "Backend"; "Mobile"; "DevOps"; "AI/ML"; "Security";
               "Database" ]}%string : gset string).
Proof.
  unfold domain_keywords, _init_domain_keywords. intros Hin.
  repeat (apply elem_of_cons in Hin as [[= -> _] | Hin];
          [rewrite !elem_of_union, !elem_of_singleton; naive_solver |]).
  apply elem_of_nil in Hin. contradiction.
Qed.

Lemma _analyze_repo_domains_labels repo domain :
  domain ∈ _analyze_repo_domains repo →
  domain ∈ ({[ "Frontend"; "Backend"; "Mobile"; "DevOps"; "AI/ML"; "Security";
               "Database" ]}%string : gset string).
Proof.
  unfold _analyze_repo_domains. intros Hin.
  assert (Hcases : (∃ l, domain ∈ _classify_by_language l) ∨
                   (∃ ts, domain ∈ _classify_by_topics ts)).
  { destruct (language repo) as [l |], (topics repo) as [[| t ts] |];
      try destruct (str_truthy l);
      repeat (apply elem_of_union in Hin as [Hin | Hin]);
      try (apply elem_of_empty in Hin; contradiction); eauto. }
  destruct Hcases as [[l Hl] | [ts Hts]].
  - apply _classify_by_language_elem in Hl as (kws & Hd & _).
    exact (domain_keywords_labels _ _ Hd).
  - apply _classify_by_topics_elem in Hts as (t & kws & k & _ & Hd & _).
    exact (domain_keywords_labels _ _ Hd).
Qed.

Lemma matched_domains_elem repositories domain :
  domain ∈ matched_domains repositories ↔
  ∃ repo, repo ∈ repositories ∧ domain ∈ _analyze_repo_domains repo.
Proof.
  unfold matched_domains. rewrite elem_of_union_list. split.
  - intros (X & HX & Hd). apply list_elem_of_fmap in HX as (repo & -> & Hrepo). eauto.
  - intros (repo & Hrepo & Hd). exists (_analyze_repo_domains repo).
    split; [apply list_elem_of_fmap_2; exact Hrepo | exact Hd].
Qed.

Lemma classify_domains_dom repositories (contributions : list Contribution) :
  ∃ scores, classify_domains repositories contributions = Ok scores ∧
            dom scores = matched_domains repositories.
Proof.
  destruct (classify_domains_spec repositories contributions) as (scores & -> & Hlook).
  exists scores. split; [reflexivity |].
  apply set_eq. intros domain. rewrite elem_of_dom, Hlook.
  destruct (decide (domain ∈ matched_domains repositories)) as [Hin | Hnin].
  - split; [auto | eauto].
  - split; [intros [? [=]] | contradiction].
Qed.

(** X13: the keys of the result of [classify_domains] are exactly the
    domains matched by the language or the topics of at least one
    repository, and never anything but the seven labels of the keyword
    table. *)
Theorem classify_domains_keys repositories (contributions : list Contribution) :
  ∃ scores,
    classify_domains repositories contributions = Ok scores ∧
    (∀ domain, domain ∈ dom scores ↔
               ∃ repo, repo ∈ repositories ∧ domain ∈ _analyze_repo_domains repo) ∧
    dom scores ⊆ {[ "Frontend"; "Backend"; "Mobile"; "DevOps"; "AI/ML"; "Security";
                    "Database" ]}%string.
Proof.
  destruct (classify_domains_dom repositories contributions) as (scores & -> & Hdom).
  exists scores. split; [reflexivity |]. rewrite Hdom. split.
  - apply matched_domains_elem.
  - intros domain Hin. apply matched_domains_elem in Hin as (repo & _ & Hd).
    exact (_analyze_repo_domains_labels _ _ Hd).
Qed.

(** X14: when the total weight is positive, the score of every matched
    domain is the sum of the weights of the repositories matching it
    divided by the sum of the weights of all repositories, and no other
    domain has a score. *)
Theorem classify_domains_shares repositories (contributions : list Contribution) :
  0 < total_weight repositories →
  ∃ scores,
    classify_domains repositories contributions = Ok scores ∧
    ∀ domain,
      scores !! domain =
      if decide (domain ∈ matched_domains repositories)
      then Some (domain_weight domain repositories / total_weight repositories)
      else None.
Proof.
  intros Hpos.
  destruct (classify_domains_spec repositories contributions) as (scores & -> & Hlook).
  exists scores. split; [reflexivity |]. intros domain. rewrite Hlook.
  destruct (Rlt_dec 0 (total_weight repositories)); [reflexivity | contradiction].
Qed.

Lemma _calculate_repo_weight_nonneg repo :
  (0 <= default 0 (stars repo))%Z → 0 <= _calculate_repo_weight repo.
Proof.
  intros Hs. unfold _calculate_repo_weight. apply (IZR_le 0) in Hs.
  apply Rmin_glb; lra.
Qed.

Lemma domain_weight_bounds domain repositories :
  Forall (λ repo, (0 <= default 0 (stars repo))%Z) repositories →
  0 <= domain_weight domain repositories <= total_weight repositories.
Proof.
  induction 1 as [| repo rest Hs _ IH]; cbn; [lra |].
  pose proof (_calculate_repo_weight_nonneg repo Hs).
  destruct (decide _); lra.
Qed.

(** X15: when no repository has a negative star count, every score
    returned by [classify_domains] lies in [[0, 1]]. *)
Theorem classify_domains_scores_in_unit_interval
    repositories (contributions : list Contribution) :
  Forall (λ repo, (0 <= default 0 (stars repo))%Z) repositories →
  ∃ scores,
    classify_domains repositories contributions = Ok scores ∧
    ∀ domain score, scores !! domain = Some score → 0 <= score <= 1.
Proof.
  intros Hstars.
  destruct (classify_domains_spec repositories contributions) as (scores & -> & Hlook).
  exists scores. split; [reflexivity |]. intros domain score. rewrite Hlook.
  destruct (decide _); [| discriminate]. intros [= <-].
  pose proof (domain_weight_bounds domain repositories Hstars) as [Hlo Hhi].
  destruct (Rlt_dec 0 (total_weight repositories)) as [Hpos | Hnpos].
  - split.
    + apply Rmult_le_pos; [exact Hlo |]. left. apply Rinv_0_lt_compat. exact Hpos.
    + apply (Rmult_le_reg_r (total_weight repositories)); [exact Hpos |].
      replace (domain_weight domain repositories / total_weight repositories *
               total_weight repositories)
        with (domain_weight domain repositories) by (field; lra).
      lra.
  - lra.
Qed.

Lemma classify_domains_shares_witness :
  0 < total_weight [mk_repo 250 (Some "python"%string) []; mk_repo 0 None ["docker"%string]] ∧
  ∃ scores,
    classify_domains
      [mk_repo 250 (Some "python"%string) []; mk_repo 0 None ["docker"%string]] [] =
      Ok scores ∧
    ∀ domain,
      scores !! domain =
      if decide (domain ∈ matched_domains
                   [mk_repo 250 (Some "python"%string) []; mk_repo 0 None ["docker"%string]])
      then Some (domain_weight domain
                   [mk_repo 250 (Some "python"%string) [];
                    mk_repo 0 None ["docker"%string]] /
                 total_weight
                   [mk_repo 250 (Some "python"%string) [];
                    mk_repo 0 None ["docker"%string]])
      else None.
Proof.
  assert (H : 0 < total_weight
                    [mk_repo 250 (Some "python"%string) [];
                     mk_repo 0 None ["docker"%string]]).
  { cbn [total_weight].
    pose proof (_calculate_repo_weight_pos (mk_repo 250 (Some "python"%string) [])
                  ltac:(cbn; lia)).
    rewrite (_calculate_repo_weight_zero (mk_repo 0 None ["docker"%string]))
      by reflexivity.
    lra. }
  split; [exact H | apply (classify_domains_shares _ [] H)].
Defined.

Lemma classify_domains_scores_in_unit_interval_witness :
  Forall (λ repo, (0 <= default 0 (stars repo))%Z)
         [mk_repo 250 (Some "python"%string) []; mk_repo 12000 None ["docker"%string]] ∧
  ∃ scores,
    classify_domains
      [mk_repo 250 (Some "python"%string) []; mk_repo 12000 None ["docker"%string]] [] =
      Ok scores ∧
    ∀ domain score, scores !! domain = Some score → 0 <= score <= 1.
Proof.
  assert (H : Forall (λ repo, (0 <= default 0 (stars repo))%Z)
                [mk_repo 250 (Some "python"%string) [];
                 mk_repo 12000 None ["docker"%string]]).
  { repeat constructor; cbn; lia. }
  split; [exact H | apply (classify_domains_scores_in_unit_interval _ [] H)].
Defined.

(** X16: the weight of a repository is [stars/100] capped at 100: it is
    never above 100, it is exactly 100 from 10000 stars on, it equals
    [stars/100] up to there, a missing ['stars'] key counts as 0 stars,
    and, there being no lower cap, it is negative exactly when the star
    count is. *)
Theorem _calculate_repo_weight_cap repo :
  _calculate_repo_weight repo <= 100 ∧
  (_calculate_repo_weight repo = 100 ↔ (10000 <= default 0 (stars repo))%Z) ∧
  ((default 0 (stars repo) <= 10000)%Z →
   _calculate_repo_weight repo = IZR (default 0%Z (stars repo)) / 100) ∧
  (stars repo = None → _calculate_repo_weight repo = 0) ∧
  (_calculate_repo_weight repo < 0 ↔ (default 0 (stars repo) < 0)%Z).
Proof.
  unfold _calculate_repo_weight.
  set (n := default 0%Z (stars repo)).
  assert (Hcmp : ∀ k : Z, (IZR n <= IZR k ↔ (n <= k)%Z) ∧ (IZR k <= IZR n ↔ (k <= n)%Z)).
  { intros k. split; split; first [apply le_IZR | apply IZR_le]. }
  destruct (Hcmp 10000%Z) as [Hle Hge]. destruct (Hcmp 0%Z) as [Hle0 Hge0].
  split; [apply Rmin_l |]. split; [| split; [| split]].
  - split.
    + intros Heq. apply Hge.
      assert (100 <= IZR n / 100) by (rewrite <- Heq at 1; apply Rmin_r). lra.
    + intros Hn. apply Hge in Hn. apply Rmin_left. lra.
  - intros Hn. apply Hle in Hn. apply Rmin_right. lra.
  - intros Hnone. subst n. rewrite Hnone. cbn. rewrite Rmin_right; lra.
  - split.
    + intros Hneg. destruct (Z_lt_le_dec n 0) as [? | Hnn]; [assumption |].
      apply Hge0 in Hnn.
      assert (0 <= Rmin 100 (IZR n / 100)) by (apply Rmin_glb; lra). lra.
    + intros Hn. assert (IZR n < 0) by (apply (IZR_lt n 0); exact Hn).
      eapply Rle_lt_trans; [apply Rmin_r |]. lra.
Qed.

End Matching.

(** ** NationPredictor: the location table *)

Section Locations.

Import NationPredictor.

Local Open Scope string_scope.

Lemma first_match_Some (location : string) (table : list (string * list string)) nation :
  first_match location table = Some nation ↔
  ∃ earlier keywords later,
    table = (earlier ++ (nation, keywords) :: later)%list ∧
    location_matches location keywords = true ∧
    Forall (λ entry, location_matches location entry.2 = false) earlier.
Proof.
  unfold location_matches.
  induction table as [| [n kws] table IH]; cbn [first_match].
  - split; [discriminate |]. intros (earlier & k & later & Heq & _).
    destruct earlier; discriminate.
  - destruct (existsb (λ keyword, str_contains keyword location) kws) eqn:Hm.
    + split.
      * intros [= <-]. exists [], kws, table. split; [reflexivity |].
        split; [exact Hm | constructor].
      * intros (earlier & k & later & Heq & Hk & Hearlier).
        destruct earlier as [| e earlier].
        -- injection Heq as -> _ _. reflexivity.
        -- injection Heq as <- _. apply Forall_cons in Hearlier as [He _].
           cbn in He. congruence.
    + rewrite IH. split.
      * intros (earlier & k & later & -> & Hk & Hearlier).
        exists ((n, kws) :: earlier), k, later. split; [reflexivity |].
        split; [exact Hk |]. constructor; [exact Hm | exact Hearlier].
      * intros (earlier & k & later & Heq & Hk & Hearlier).
        destruct earlier as [| e earlier].
        -- injection Heq as _ <- _. congruence.
        -- injection Heq as _ ->. apply Forall_cons in Hearlier as [_ Hearlier].
           eauto 6.
Qed.

(** X17: a non-empty location maps to a region exactly when that
    region's entry is the first entry of the table, in declaration order,
    one of whose keywords occurs in the lower-cased, stripped location:
    an earlier matching entry always wins over a later one. *)
Theorem _map_location_to_nation_first_in_table_order (location nation : string) :
  _map_location_to_nation (Some location) = Some nation ↔
  location ≠ "" ∧
  ∃ earlier keywords later,
    location_mapping = (earlier ++ (nation, keywords) :: later)%list ∧
    location_matches (strip (lower location)) keywords = true ∧
    Forall (λ entry, location_matches (strip (lower location)) entry.2 = false) earlier.
Proof.
  unfold _map_location_to_nation. destruct location as [| c location].
  - cbn. split; [discriminate | intros [Hne _]; contradiction].
  - cbn [str_truthy]. rewrite first_match_Some. split.
    + intros H. split; [discriminate | exact H].
    + intros [_ H]. exact H.
Qed.

(** *** Case and surrounding whitespace *)

Lemma ascii_lower_space (c : ascii) : is_space c = true → ascii_lower c = c.
Proof. destruct c as [[] [] [] [] [] [] [] []]; cbn; intros; first [reflexivity | discriminate]. Qed.

Lemma lower_app (a b : string) : lower (a ++ b) = lower a ++ lower b.
Proof. induction a as [| c a IH]; [reflexivity |]. simpl. rewrite IH. reflexivity. Qed.

Lemma lower_all_space (ws : string) : all_space ws = true → lower ws = ws.
Proof.
  induction ws as [| c ws IH]; [reflexivity |]. simpl.
  intros [Hc Hws]%andb_true_iff. rewrite (ascii_lower_space c Hc), (IH Hws). reflexivity.
Qed.

Lemma str_truthy_lower (s : string) : str_truthy (lower s) = str_truthy s.
Proof. destruct s; reflexivity. Qed.

Lemma lstrip_app_space (ws s : string) : all_space ws = true → lstrip (ws ++ s) = lstrip s.
Proof.
  induction ws as [| c ws IH]; [reflexivity |]. simpl.
  intros [Hc Hws]%andb_true_iff. rewrite Hc. apply IH. exact Hws.
Qed.

Lemma rstrip_all_space (ws : string) : all_space ws = true → rstrip ws = "".
Proof.
  induction ws as [| c ws IH]; [reflexivity |]. simpl.
  intros [Hc Hws]%andb_true_iff. rewrite (IH Hws), Hc. reflexivity.
Qed.

Lemma rstrip_app_space (s ws : string) : all_space ws = true → rstrip (s ++ ws) = rstrip s.
Proof.
  intros Hws. induction s as [| c s IH]; [apply rstrip_all_space; exact Hws |].
  simpl. rewrite IH. reflexivity.
Qed.

Lemma lstrip_all_space (ws : string) : all_space ws = true → lstrip ws = "".
Proof.
  induction ws as [| c ws IH]; [reflexivity |]. simpl.
  intros [Hc Hws]%andb_true_iff. rewrite Hc. apply IH. exact Hws.
Qed.

Lemma strip_app_space_r (s ws : string) : all_space ws = true → strip (s ++ ws) = strip s.
Proof.
  intros Hws. unfold strip. induction s as [| c s IH].
  - change ("" ++ ws) with ws. rewrite (lstrip_all_space ws Hws). reflexivity.
  - change (String c s ++ ws) with (String c (s ++ ws)). cbn [lstrip].
    destruct (is_space c); [exact IH |].
    apply (rstrip_app_space (String c s) ws Hws).
Qed.

Lemma strip_pad (ws1 s ws2 : string) :
  all_space ws1 = true → all_space ws2 = true → strip (ws1 ++ s ++ ws2) = strip s.
Proof.
  intros H1 H2. unfold strip. rewrite lstrip_app_space by exact H1.
  apply strip_app_space_r. exact H2.
Qed.

Lemma all_space_app (a b : string) :
  all_space a = true → all_space b = true → all_space (a ++ b) = true.
Proof.
  intros Ha Hb. induction a as [| c a IH]; [exact Hb |].
  simpl in *. apply andb_true_iff in Ha as [Hc Ha]. rewrite Hc. apply IH. exact Ha.
Qed.

Lemma strip_all_space (ws : string) : all_space ws = true → strip ws = "".
Proof. intros Hws. unfold strip. rewrite (lstrip_all_space ws Hws). reflexivity. Qed.

(** X18: the letter case of a location and whitespace around it never
    change the region it maps to. *)
Theorem _map_location_to_nation_case_and_padding (ws1 location ws2 : string) :
  all_space ws1 = true → all_space ws2 = true →
  _map_location_to_nation (Some (ws1 ++ location ++ ws2)) =
    _map_location_to_nation (Some location) ∧
  _map_location_to_nation (Some (lower location)) =
    _map_location_to_nation (Some location).
Proof.
  intros H1 H2. split.
  - unfold _map_location_to_nation.
    destruct location as [| c location].
    + change ("" ++ ws2) with ws2. cbn [str_truthy].
      pose proof (all_space_app ws1 ws2 H1 H2) as Hws.
      destruct (str_truthy (ws1 ++ ws2)); [| reflexivity].
      rewrite (lower_all_space _ Hws), (strip_all_space _ Hws). reflexivity.
    + assert (Htruthy : str_truthy (ws1 ++ String c location ++ ws2) = true).
      { destruct ws1; reflexivity. }
      rewrite Htruthy. cbn [str_truthy].
      rewrite !lower_app, (lower_all_space _ H1), (lower_all_space _ H2).
      rewrite strip_pad by assumption. reflexivity.
  - unfold _map_location_to_nation.
    rewrite str_truthy_lower, lower_idemp. reflexivity.
Qed.

Lemma _map_location_to_nation_case_and_padding_witness :
  all_space "  " = true ∧ all_space (String (ascii_of_nat 10) "") = true ∧
  (_map_location_to_nation
     (Some ("  " ++ "Bangalore, INDIA" ++ String (ascii_of_nat 10) "")) =
     _map_location_to_nation (Some "Bangalore, INDIA") ∧
   _map_location_to_nation (Some (lower "Bangalore, INDIA")) =
     _map_location_to_nation (Some "Bangalore, INDIA")).
Proof.
  split; [reflexivity |]. split; [reflexivity |].
  apply (_map_location_to_nation_case_and_padding
           "  " "Bangalore, INDIA" (String (ascii_of_nat 10) "")); reflexivity.
Defined.

End Locations.

(** ** NationPredictor: the network vote *)

Section Vote.

Import NationPredictor.

Implicit Types (l : list string) (c : list (string * nat)).

Lemma first_match_in_table (location : string) (table : list (string * list string)) nation :
  first_match location table = Some nation → nation ∈ table.*1.
Proof.
  intros (earlier & kws & later & -> & _)%first_match_Some.
  rewrite fmap_app, fmap_cons. apply elem_of_app. right. apply list_elem_of_here.
Qed.

Lemma _map_location_to_nation_region (location : option string) nation :
  _map_location_to_nation location = Some nation →
  nation ∈ ["China"; "United States"; "India"; "United Kingdom"]%string.
Proof.
  unfold _map_location_to_nation. destruct location as [loc |]; [| discriminate].
  destruct (str_truthy loc); [| discriminate].
  apply first_match_in_table.
Qed.

Lemma mapped_nations_elem (network_locations : list string) nation :
  nation ∈ mapped_nations network_locations ↔
  ∃ loc, loc ∈ network_locations ∧ _map_location_to_nation (Some loc) = Some nation.
Proof. rewrite mapped_nations_omap. apply list_elem_of_omap. Qed.

Lemma mapped_nations_app (l1 l2 : list string) :
  mapped_nations (l1 ++ l2) = mapped_nations l1 ++ mapped_nations l2.
Proof. rewrite !mapped_nations_omap. apply omap_app. Qed.

Lemma _predict_from_network_mapped (l1 l2 : list string) :
  mapped_nations l1 = mapped_nations l2 →
  _predict_from_network l1 = _predict_from_network l2.
Proof. intros Heq. unfold _predict_from_network. rewrite Heq. reflexivity. Qed.

Lemma occurrences_elem x l : x ∈ l → (0 < occurrences x l)%nat.
Proof.
  intros Hx. unfold occurrences. apply count_occ_In.
  apply list_elem_of_In. exact Hx.
Qed.

Lemma occurrences_two x y l :
  x ≠ y → (occurrences x l + occurrences y l ≤ length l)%nat.
Proof.
  intros Hne. unfold occurrences. induction l as [| z l IH]; cbn; [lia |].
  destruct (string_dec z x), (string_dec z y); subst; try contradiction; lia.
Qed.

(** X19: [predict_nation] always returns one of the four regions of the
    table or ["Unknown"]; it returns ["Unknown"] exactly when neither the
    declared location nor any network location maps to a region, and the
    confidence is 0 in that case and in no other. *)
Theorem predict_nation_region_or_unknown (developer_location : option string)
    (network_locations : list string) :
  ∃ region confidence,
    predict_nation developer_location network_locations = Ok (region, confidence) ∧
    region ∈ ["China"; "United States"; "India"; "United Kingdom"; "Unknown"]%string ∧
    (region = "Unknown"%string ↔
       _map_location_to_nation developer_location = None ∧
       mapped_nations network_locations = []) ∧
    (confidence = 0%R ↔ region = "Unknown"%string).
Proof.
  assert (Hknown : ∀ r, r ∈ ["China"; "United States"; "India"; "United Kingdom"]%string →
                        r ≠ "Unknown"%string ∧
                        r ∈ ["China"; "United States"; "India"; "United Kingdom";
                             "Unknown"]%string).
  { intros r Hr. rewrite !elem_of_cons in *.
    destruct Hr as [-> | [-> | [-> | [-> | Hr]]]];
      [split; [discriminate | auto 6] .. | apply elem_of_nil in Hr; contradiction]. }
  rewrite predict_nation_cases.
  destruct (_map_location_to_nation developer_location) as [nation |] eqn:Hmap.
  - exists nation, 1%R. split; [reflexivity |].
    destruct (Hknown _ (_map_location_to_nation_region _ _ Hmap)) as [Hne Hin].
    split; [exact Hin |]. split.
    + split; [contradiction | intros [[=] _]].
    + split; [intros H1; lra | contradiction].
  - destruct (mapped_nations network_locations) as [| x m'] eqn:Hm.
    + exists "Unknown"%string, 0%R. rewrite _predict_from_network_none by exact Hm.
      split; [reflexivity |]. split; [rewrite !elem_of_cons; auto 6 |].
      split; [split; auto | split; auto].
    + destruct (_predict_from_network_vote network_locations) as (region & -> & Hin & _);
        [congruence |].
      eexists region, _. split; [reflexivity |].
      pose proof Hin as Hin'. apply mapped_nations_elem in Hin' as (loc & _ & Hloc).
      destruct (Hknown _ (_map_location_to_nation_region _ _ Hloc)) as [Hne Hreg].
      split; [exact Hreg |]. split.
      * split; [contradiction | intros [_ Hnil]; congruence].
      * split; [| contradiction]. intros Hzero. exfalso.
        pose proof (occurrences_elem _ _ Hin) as Hpos. rewrite Hm in *.
        assert (Hlen : (0 < length (x :: m'))%nat) by (cbn; lia).
        apply lt_0_INR in Hpos, Hlen.
        assert (0 < INR (occurrences region (x :: m')) / INR (length (x :: m')))%R
          by (apply Rdiv_lt_0_compat; assumption).
        lra.
Qed.

(** X20: a network location that maps to no region is ignored: removing
    it from anywhere in the list changes neither the region nor the
    confidence. *)
Theorem predict_nation_ignores_unmapped (developer_location : option string)
    (before after : list string) (loc : string) :
  _map_location_to_nation (Some loc) = None →
  predict_nation developer_location (before ++ loc :: after) =
  predict_nation developer_location (before ++ after).
Proof.
  intros Hnone. rewrite !predict_nation_cases.
  destruct (_map_location_to_nation developer_location); [reflexivity |].
  apply _predict_from_network_mapped.
  rewrite !mapped_nations_app. f_equal.
  rewrite (mapped_nations_omap (loc :: after)), (mapped_nations_omap after).
  cbn [omap list_omap]. rewrite Hnone. reflexivity.
Qed.

Lemma predict_nation_ignores_unmapped_witness :
  _map_location_to_nation (Some "Mars"%string) = None ∧
  predict_nation None (["Delhi"; "London"]%string ++ "Mars"%string :: ["mumbai"%string]) =
  predict_nation None (["Delhi"; "London"]%string ++ ["mumbai"%string]).
Proof.
  split; [vm_compute; reflexivity |].
  apply (predict_nation_ignores_unmapped None ["Delhi"; "London"]%string
           ["mumbai"%string] "Mars"%string).
  vm_compute. reflexivity.
Defined.

(** X21: a strict majority always wins: when the declared location maps
    to nothing and more than half of the mapped network locations map to
    one region, that region is returned, with its share as confidence. *)
Theorem predict_nation_strict_majority (developer_location : option string)
    (network_locations : list string) (region : string) :
  _map_location_to_nation developer_location = None →
  (length (mapped_nations network_locations) <
   2 * occurrences region (mapped_nations network_locations))%nat →
  predict_nation developer_location network_locations =
  Ok (region,
      (INR (occurrences region (mapped_nations network_locations)) /
       INR (length (mapped_nations network_locations)))%R).
Proof.
  intros Hnone Hmaj. rewrite predict_nation_cases, Hnone.
  destruct (_predict_from_network_vote network_locations) as (winner & -> & _ & Hmax).
  { intros Hnil. rewrite Hnil in Hmaj. cbn in Hmaj. lia. }
  destruct (decide (winner = region)) as [-> | Hne]; [reflexivity |].
  pose proof (Hmax region) as Hle.
  pose proof (occurrences_two winner region (mapped_nations network_locations) Hne).
  lia.
Qed.

Lemma predict_nation_strict_majority_witness :
  _map_location_to_nation None = None ∧
  (length (mapped_nations ["Delhi"; "London"; "mumbai"; "Mars"]%string) <
   2 * occurrences "India"%string
         (mapped_nations ["Delhi"; "London"; "mumbai"; "Mars"]%string))%nat ∧
  predict_nation None ["Delhi"; "London"; "mumbai"; "Mars"]%string =
  Ok ("India"%string,
      (INR (occurrences "India"%string
              (mapped_nations ["Delhi"; "London"; "mumbai"; "Mars"]%string)) /
       INR (length (mapped_nations ["Delhi"; "London"; "mumbai"; "Mars"]%string)))%R).
Proof.
  split; [reflexivity |].
  assert (H : (length (mapped_nations ["Delhi"; "London"; "mumbai"; "Mars"]%string) <
               2 * occurrences "India"%string
                     (mapped_nations ["Delhi"; "London"; "mumbai"; "Mars"]%string))%nat).
  { vm_compute. lia. }
  split; [exact H |].
  apply (predict_nation_strict_majority None
           ["Delhi"; "London"; "mumbai"; "Mars"]%string "India"%string eq_refl H).
Defined.

(** *** Ties *)

(** [max_entry] returns the first entry of maximal count: every entry
    before it has a strictly smaller count. *)
Lemma max_entry_first c (p : string * nat) :
  ∃ c1 c2, p :: c = c1 ++ max_entry p c :: c2 ∧
           ∀ q, q ∈ c1 → (q.2 < (max_entry p c).2)%nat.
Proof.
  revert p. induction c as [| q0 c IH]; intros p.
  - exists [], []. split; [reflexivity |]. intros q Hq.
    apply elem_of_nil in Hq. contradiction.
  - change (max_entry p (q0 :: c))
      with (max_entry (if (p.2 <? q0.2)%nat then q0 else p) c).
    destruct (IH (if (p.2 <? q0.2)%nat then q0 else p)) as (c1 & c2 & Heq & Hlt).
    destruct (max_entry_spec c (if (p.2 <? q0.2)%nat then q0 else p)) as [_ Hmax].
    set (best := max_entry (if (p.2 <? q0.2)%nat then q0 else p) c) in *.
    destruct (Nat.ltb_spec p.2 q0.2) as [Hpq | Hpq].
    + exists (p :: c1), c2. split; [cbn; rewrite <- Heq; reflexivity |].
      intros q Hq. apply elem_of_cons in Hq as [-> | Hq]; [| apply Hlt; exact Hq].
      pose proof (Hmax q0 (list_elem_of_here _ _)). lia.
    + destruct c1 as [| p' c1].
      * cbn in Heq. injection Heq as Hp Hc. exists [], (q0 :: c2).
        split; [cbn; rewrite <- Hp, <- Hc; reflexivity |].
        intros q Hq. apply elem_of_nil in Hq. contradiction.
      * cbn in Heq. injection Heq as <- Hc. exists (p :: q0 :: c1), c2.
        split; [cbn; rewrite Hc; reflexivity |].
        pose proof (Hlt p (list_elem_of_here _ _)) as Hp.
        intros q Hq. apply elem_of_cons in Hq as [-> | Hq]; [exact Hp |].
        apply elem_of_cons in Hq as [-> | Hq]; [lia |].
        apply Hlt. apply list_elem_of_further. exact Hq.
Qed.

(** The keys of a [Counter] are in order of first occurrence: whatever
    occurs in the list before the first occurrence of a key has its own
    key earlier in the counter. *)
Lemma Counter_keys_order l (keys1 keys2 : list string) (key : string) :
  (Counter l).*1 = keys1 ++ key :: keys2 →
  ∃ l1 l2, l = l1 ++ key :: l2 ∧ ∀ y, y ∈ l1 → y ∈ keys1.
Proof.
  revert keys1 keys2. induction l as [| x l IH] using rev_ind; intros keys1 keys2 Hkeys.
  - destruct keys1; discriminate.
  - rewrite Counter_snoc, counter_incr_keys in Hkeys.
    destruct (decide (x ∈ (Counter l).*1)) as [Hin | Hnin].
    + destruct (IH _ _ Hkeys) as (l1 & l2 & -> & Hbefore).
      exists l1, (l2 ++ [x]). split; [rewrite <- app_assoc; reflexivity | exact Hbefore].
    + destruct keys2 as [| k keys2 _] using rev_ind.
      * apply app_inj_tail in Hkeys as [<- <-].
        exists l, []. split; [reflexivity |].
        intros y Hy. apply (Counter_keys l). exact Hy.
      * rewrite app_comm_cons, app_assoc in Hkeys.
        apply app_inj_tail in Hkeys as [Hkeys _].
        destruct (IH _ _ Hkeys) as (l1 & l2 & -> & Hbefore).
        exists l1, (l2 ++ [x]). split; [rewrite <- app_assoc; reflexivity | exact Hbefore].
Qed.

(** X22: ties are broken by first occurrence: the returned region occurs
    in the list of mapped network locations at a position before which
    only regions of strictly smaller count occur. *)
Theorem predict_nation_first_of_the_most_frequent (developer_location : option string)
    (network_locations : list string) :
  _map_location_to_nation developer_location = None →
  mapped_nations network_locations ≠ [] →
  ∃ region confidence before after,
    predict_nation developer_location network_locations = Ok (region, confidence) ∧
    mapped_nations network_locations = before ++ region :: after ∧
    ∀ other, other ∈ before →
      (occurrences other (mapped_nations network_locations) <
       occurrences region (mapped_nations network_locations))%nat.
Proof.
  intros Hnone Hne. rewrite predict_nation_cases, Hnone.
  unfold _predict_from_network.
  set (m := mapped_nations network_locations) in *.
  destruct m as [| x m'] eqn:Hm; [congruence |]. rewrite <- Hm.
  assert (Hc : Counter m ≠ []).
  { intros Hnil. pose proof (Counter_complete m x) as Hin.
    rewrite Hnil in Hin. eapply elem_of_nil, Hin. rewrite Hm. apply list_elem_of_here. }
  destruct (Counter m) as [| p c] eqn:Hcounter; [congruence |].
  cbn [most_common_1 item_0 mbind result_bind].
  destruct (max_entry_first c p) as (c1 & c2 & Hsplit & Hlt).
  destruct (max_entry p c) as [region k] eqn:Hbest. cbn [fst snd] in *.
  assert (Hentry : (region, k) ∈ Counter m).
  { rewrite Hcounter, Hsplit. apply elem_of_app. right. apply list_elem_of_here. }
  destruct (Counter_entry _ _ _ Hentry) as [-> _].
  rewrite truediv_ok by (apply not_0_INR; rewrite Hm; cbn; lia).
  cbn [mbind result_bind].
  assert (Hkeys : (Counter m).*1 = c1.*1 ++ region :: c2.*1).
  { rewrite Hcounter, Hsplit, fmap_app. reflexivity. }
  destruct (Counter_keys_order _ _ _ _ Hkeys) as (before & after & Hlist & Hbefore).
  eexists region, _, before, after. split; [reflexivity |]. split; [exact Hlist |].
  intros other Hother. apply Hbefore in Hother.
  apply list_elem_of_fmap in Hother as ([o n] & -> & Hin). cbn.
  assert (Hin' : (o, n) ∈ Counter m).
  { rewrite Hcounter, Hsplit. apply elem_of_app. left. exact Hin. }
  destruct (Counter_entry _ _ _ Hin') as [<- _].
  exact (Hlt _ Hin).
Qed.

Lemma predict_nation_first_of_the_most_frequent_witness :
  _map_location_to_nation None = None ∧
  mapped_nations ["London"; "Delhi"; "mumbai"; "uk"]%string ≠ [] ∧
  ∃ region confidence before after,
    predict_nation None ["London"; "Delhi"; "mumbai"; "uk"]%string =
      Ok (region, confidence) ∧
    mapped_nations ["London"; "Delhi"; "mumbai"; "uk"]%string =
      before ++ region :: after ∧
    ∀ other, other ∈ before →
      (occurrences other (mapped_nations ["London"; "Delhi"; "mumbai"; "uk"]%string) <
       occurrences region (mapped_nations ["London"; "Delhi"; "mumbai"; "uk"]%string))%nat.
Proof.
  split; [reflexivity |].
  assert (H : mapped_nations ["London"; "Delhi"; "mumbai"; "uk"]%string ≠ []).
  { vm_compute. discriminate. }
  split; [exact H |].
  apply (predict_nation_first_of_the_most_frequent None
           ["London"; "Delhi"; "mumbai"; "uk"]%string eq_refl H).
Defined.

End Vote.

(** ** DeveloperAnalyzer: the talent rank and the assembled record *)

Section Rank.

Import DomainClassifier DeveloperAnalyzer.

Variable get_developer_profile : string → awaited DeveloperProfile.
Variable get_repository_metrics : string → awaited Repo.
Variable get_developer_contributions : string → string → awaited Contribution.
Variable now : Z.

Local Open Scope R_scope.

Local Abbreviation complete :=
  (complete_data get_repository_metrics get_developer_contributions).

Lemma score_repositories_step (user repo_name : string) (rest : list string)
    (total_project total_contribution : R) (count : Z) :
  complete user repo_name = true →
  ∃ project_score contribution_score,
    0 <= project_score <= 100 ∧ 0 <= contribution_score <= 100 ∧
    score_repositories get_repository_metrics get_developer_contributions user
      (repo_name :: rest) (total_project, total_contribution, count) =
    score_repositories get_repository_metrics get_developer_contributions user rest
      (total_project + project_score, total_contribution + contribution_score,
       (count + 1)%Z).
Proof.
  unfold complete_data, has_metric_keys, has_contribution_keys. intros Hc.
  cbn [score_repositories].
  destruct (get_repository_metrics repo_name) as [metrics | metrics];
    [discriminate |].
  destruct (get_developer_contributions user repo_name) as [contrib | contrib];
    [discriminate |].
  cbn [is_coroutine resolved andb await mbind result_bind] in *.
  destruct (stars metrics) as [s |]; [| discriminate].
  destruct (forks metrics) as [f |]; [| discriminate].
  destruct (watchers metrics) as [w |]; [| discriminate].
  destruct (commits_count contrib) as [cc |]; [| discriminate].
  destruct (resolved_issues contrib) as [ri |]; [| discriminate].
  destruct (pull_requests contrib) as [pr |]; [| discriminate].
  destruct (code_reviews contrib) as [cr |]; [| discriminate].
  cbn [getitem mbind result_bind].
  destruct (calculate_project_importance_range
              {| ScoreCalculator.stars := s; ScoreCalculator.forks := f;
                 ScoreCalculator.watchers := w |}) as (ps & -> & Hps).
  destruct (calculate_developer_contribution_range
              {| ScoreCalculator.commits := cc; ScoreCalculator.resolved_issues := ri;
                 ScoreCalculator.pull_requests := pr;
                 ScoreCalculator.code_reviews := cr |}) as (cs & -> & Hcs).
  cbn [mbind result_bind]. exists ps, cs. auto.
Qed.

Lemma score_repositories_totals (user : string) (repos : list string)
    (total_project total_contribution : R) (count : Z) :
  Forall (λ repo_name, complete user repo_name = true) repos →
  ∃ project_sum contribution_sum,
    score_repositories get_repository_metrics get_developer_contributions user repos
      (total_project, total_contribution, count) =
    Ok (total_project + project_sum, total_contribution + contribution_sum,
        (count + Z.of_nat (length repos))%Z) ∧
    0 <= project_sum <= 100 * INR (length repos) ∧
    0 <= contribution_sum <= 100 * INR (length repos).
Proof.
  intros Hall. revert total_project total_contribution count.
  induction Hall as [| repo_name rest Hc _ IH]; intros tp tc n.
  - exists 0, 0. cbn. split; [| split; lra].
    f_equal. f_equal; [f_equal; lra | lia].
  - destruct (score_repositories_step user repo_name rest tp tc n Hc)
      as (ps & cs & Hps & Hcs & ->).
    destruct (IH (tp + ps) (tc + cs) (n + 1)%Z) as (psum & csum & -> & Hpsum & Hcsum).
    exists (ps + psum), (cs + csum).
    change (length (repo_name :: rest)) with (S (length rest)). rewrite S_INR.
    split; [| split; lra].
    f_equal. f_equal; [f_equal; lra | lia].
Qed.

Lemma _calculate_talent_rank_range (user : string) (repos : list string) :
  Forall (λ repo_name, complete user repo_name = true) repos →
  ∃ rank,
    _calculate_talent_rank get_repository_metrics get_developer_contributions user repos =
      Ok rank ∧
    0 <= rank <= 100.
Proof.
  intros Hall. unfold _calculate_talent_rank.
  destruct (score_repositories_totals user repos 0 0 0%Z Hall)
    as (psum & csum & -> & Hp & Hc).
  cbn [mbind result_bind]. rewrite !Rplus_0_l, Z.add_0_l.
  destruct (Z.eq_dec (Z.of_nat (length repos)) 0%Z) as [Hz | Hnz].
  - exists 0. split; [reflexivity | lra].
  - assert (Hlen : (0 < length repos)%nat) by lia.
    assert (Hn : 0 < INR (length repos)) by (apply lt_0_INR; exact Hlen).
    rewrite <- INR_IZR_INZ.
    rewrite !truediv_ok by lra. cbn [mbind result_bind].
    eexists. split; [reflexivity |].
    assert (Hdiv : ∀ x, 0 <= x <= 100 * INR (length repos) →
                        0 <= x / INR (length repos) <= 100).
    { intros x [Hlo Hhi]. split.
      - apply Rmult_le_pos; [exact Hlo |]. left. apply Rinv_0_lt_compat. exact Hn.
      - apply (Rmult_le_reg_r (INR (length repos))); [exact Hn |].
        replace (x / INR (length repos) * INR (length repos)) with x by (field; lra).
        exact Hhi. }
    pose proof (Hdiv _ Hp). pose proof (Hdiv _ Hc).
    unfold ScoreCalculator.calculate_final_score, _calculate_activity_factor. lra.
Qed.


Lemma collect_locations_awaitable (accounts locations : list string) :
  Forall (λ account, is_coroutine (get_developer_profile account) = true) accounts →
  collect_locations get_developer_profile accounts locations =
  Ok (locations ++ omap (account_location get_developer_profile) accounts).
Proof.
  intros Hall. revert locations.
  induction Hall as [| account rest Hc _ IH]; intros locations; cbn [collect_locations].
  - cbn. rewrite app_nil_r. reflexivity.
  - unfold account_location at 1. cbn [omap list_omap].
    destruct (get_developer_profile account) as [q | q]; [discriminate |].
    cbn [await mbind result_bind resolved]. rewrite IH.
    destruct (location q) as [loc |]; [| reflexivity].
    destruct (str_truthy loc); [| reflexivity].
    rewrite <- app_assoc. reflexivity.
Qed.

Lemma _collect_network_locations_spec_aux (profile : DeveloperProfile) :
  Forall (λ account, is_coroutine (get_developer_profile account) = true)
         (followers profile ++ following profile) →
  _collect_network_locations get_developer_profile profile =
  Ok (omap (account_location get_developer_profile)
           (followers profile ++ following profile)).
Proof.
  intros Hall. apply Forall_app in Hall as [Hfollowers Hfollowing].
  unfold _collect_network_locations.
  rewrite collect_locations_awaitable by exact Hfollowers. cbn [mbind result_bind].
  rewrite collect_locations_awaitable by exact Hfollowing.
  rewrite omap_app. reflexivity.
Qed.


Lemma _collect_repository_details_awaitable (repos : list string) :
  Forall (λ repo_name, is_coroutine (get_repository_metrics repo_name) = true) repos →
  _collect_repository_details get_repository_metrics repos =
  Ok (map (λ repo_name, resolved (get_repository_metrics repo_name)) repos).
Proof.
  induction 1 as [| repo_name rest Hc _ IH]; cbn [_collect_repository_details map];
    [reflexivity |].
  destruct (get_repository_metrics repo_name) as [m | m]; [discriminate |].
  cbn [await mbind result_bind resolved]. rewrite IH. reflexivity.
Qed.

Lemma _collect_contributions_awaitable (user : string) (repos : list string) :
  Forall (λ repo_name,
            is_coroutine (get_developer_contributions user repo_name) = true) repos →
  _collect_contributions get_developer_contributions user repos =
  Ok (map (λ repo_name, resolved (get_developer_contributions user repo_name)) repos).
Proof.
  induction 1 as [| repo_name rest Hc _ IH]; cbn [_collect_contributions map];
    [reflexivity |].
  destruct (get_developer_contributions user repo_name) as [c | c]; [discriminate |].
  cbn [await mbind result_bind resolved]. rewrite IH. reflexivity.
Qed.

Lemma complete_data_awaitable (user repo_name : string) :
  complete user repo_name = true →
  is_coroutine (get_repository_metrics repo_name) = true ∧
  is_coroutine (get_developer_contributions user repo_name) = true.
Proof.
  unfold complete_data. intros H.
  apply andb_true_iff in H as [H _]. apply andb_true_iff in H as [H _].
  apply andb_true_iff in H. exact H.
Qed.

Lemma predict_nation_range (developer_location : option string)
    (network_locations : list string) :
  ∃ region confidence,
    NationPredictor.predict_nation developer_location network_locations =
      Ok (region, confidence) ∧
    0 <= confidence <= 1.
Proof.
  rewrite predict_nation_cases.
  destruct (NationPredictor._map_location_to_nation developer_location) as [nation |].
  - exists nation, 1. split; [reflexivity | lra].
  - destruct (NationPredictor.mapped_nations network_locations) as [| x m'] eqn:Hm.
    + exists "Unknown"%string, 0.
      rewrite _predict_from_network_none by exact Hm. split; [reflexivity | lra].
    + destruct (_predict_from_network_vote network_locations) as (region & -> & _);
        [congruence |].
      eexists region, _. split; [reflexivity |]. rewrite Hm.
      apply vote_share_range; [apply occurrences_le_length | cbn; lia].
Qed.


End Rank.




(** ** DeveloperAnalyzer on the collector of the repository *)

Section PlainCollector.

Import DomainClassifier DeveloperAnalyzer.

Variable get_user : string → GitHubDataCollector.NamedUser.
Variable get_repo : string → GitHubDataCollector.Repository.
Variable clock : Z.

(** X24: with the collector of the repository, whose methods are plain
    [def]s, every helper of the analyzer raises [TypeError] as soon as it
    has something to fetch, and only then: [_calculate_talent_rank],
    [_collect_repository_details] and [_collect_contributions] succeed
    exactly on the empty repository list (with rank 0 and the empty
    list), and [_collect_network_locations] succeeds exactly when the
    profile has neither followers nor followed accounts. *)
Theorem analyzer_helpers_await_plain_objects (user : string) (repos : list string)
    (profile : DeveloperProfile) :
  _calculate_talent_rank
    (GitHubDataCollector.get_repository_metrics get_repo)
    (GitHubDataCollector.get_developer_contributions get_user get_repo clock)
    user repos =
    match repos with [] => Ok 0%R | _ :: _ => Raise TypeError end ∧
  _collect_repository_details
    (GitHubDataCollector.get_repository_metrics get_repo) repos =
    match repos with [] => Ok [] | _ :: _ => Raise TypeError end ∧
  _collect_contributions
    (GitHubDataCollector.get_developer_contributions get_user get_repo clock)
    user repos =
    match repos with [] => Ok [] | _ :: _ => Raise TypeError end ∧
  _collect_network_locations
    (GitHubDataCollector.get_developer_profile get_user) profile =
    match followers profile ++ following profile with
    | [] => Ok []
    | _ :: _ => Raise TypeError
    end.
Proof.
  repeat split.
  - destruct repos; reflexivity.
  - destruct repos; reflexivity.
  - destruct repos; reflexivity.
  - unfold _collect_network_locations.
    destruct (followers profile) as [| follower rest]; [| reflexivity].
    destruct (following profile); reflexivity.
Qed.

End PlainCollector.


(** ** GitHubDataCollector: the review count *)

Section Reviews.

Import GitHubDataCollector.

Implicit Types (pulls : list PullRequest) (reviews : list Review).

Lemma count_reviews_from (username : string) reviews (start : Z) :
  foldl (λ total review,
           if decide (user_login review = username) then total + 1 else total)
        start reviews =
  start + Z.of_nat (length (filter (λ review, user_login review = username) reviews)).
Proof.
  revert start. induction reviews as [| review reviews IH]; intros start; cbn [foldl].
  - cbn. lia.
  - rewrite IH, filter_cons. destruct (decide (user_login review = username)); cbn; lia.
Qed.

Lemma _get_review_count_from (username : string) (since : Z) pulls (start : Z) :
  foldl (λ reviews_count pull,
           if created_at pull <? since then reviews_count
           else
             reviews_count +
             foldl (λ total review,
                      if decide (user_login review = username) then total + 1 else total)
                   0 (get_reviews pull))
        start pulls =
  start + Z.of_nat (length (reviews_by username
                              (filter (λ pull, since ≤ created_at pull) pulls))).
Proof.
  revert start. induction pulls as [| pull pulls IH]; intros start; cbn [foldl].
  - cbn. lia.
  - rewrite IH, filter_cons. unfold reviews_by.
    destruct (Z.ltb_spec (created_at pull) since) as [Hold | Hnew].
    + rewrite decide_False by lia. reflexivity.
    + rewrite decide_True by lia. rewrite count_reviews_from.
      cbn [mbind list_bind]. rewrite filter_app, length_app. lia.
Qed.

(** X27: [_get_review_count] counts exactly the reviews whose author's
    login is [username] on the pull requests created at [since] or later
    (a pull request created exactly at [since] counts); pull requests
    created before [since] contribute nothing, so the count is between 0
    and the number of reviews by [username] on all pull requests. *)
Theorem _get_review_count_spec pulls (username : string) (since : Z) :
  _get_review_count pulls username since =
    Z.of_nat (length (reviews_by username
                        (filter (λ pull, since ≤ created_at pull) pulls))) ∧
  0 ≤ _get_review_count pulls username since ≤
    Z.of_nat (length (reviews_by username pulls)).
Proof.
  unfold _get_review_count. rewrite _get_review_count_from, Z.add_0_l.
  split; [reflexivity |]. split; [lia |].
  apply Nat2Z.inj_le. unfold reviews_by.
  induction pulls as [| pull pulls IH]; [cbn; lia |].
  rewrite filter_cons. destruct (decide (since ≤ created_at pull)).
  - cbn [mbind list_bind]. rewrite !filter_app, !length_app. lia.
  - cbn [mbind list_bind]. rewrite filter_app, length_app. lia.
Qed.

End Reviews.

(** ** How the pieces compose *)

Section Composition.

Import DomainClassifier DeveloperAnalyzer.

(** X28: the domains of a repository are those matched by its language
    together with those matched by its topics; the truthiness guards
    change nothing, since an absent or empty language and an absent or
    empty topic list match no domain. *)
Theorem _analyze_repo_domains_union (repo : Repo) :
  _analyze_repo_domains repo =
  _classify_by_language (default ""%string (language repo)) ∪
  _classify_by_topics (default [] (topics repo)).
Proof.
  unfold _analyze_repo_domains.
  assert (Hlang : _classify_by_language ""%string = ∅) by (vm_compute; reflexivity).
  assert (Htopics : _classify_by_topics [] = ∅) by reflexivity.
  destruct (language repo) as [[| c l] |], (topics repo) as [[| t ts] |];
    cbn [default from_option str_truthy]; unfold Datatypes.id; rewrite ?Hlang, ?Htopics;
    rewrite ?(left_id_L ∅ (∪)), ?(right_id_L ∅ (∪)); reflexivity.
Qed.

End Composition.
